(** * airline-demo: the client reconciler of the agent view

    A shallow embedding of the TypeScript client of the airline demo
    (the [Home] page, [AgentPanel], [ChatKitPanel], [RunnerOutput] and the
    two fetch helpers of [lib/api]) together with the properties that the
    design document states about it.

    Conventions of the embedding:
    - a JavaScript number that is a time value is an integer number of
      milliseconds or [NaN]; arithmetic on it follows ECMAScript;
    - strings are [string]; JSON objects whose key order is observable
      (metadata, context) are association lists;
    - asynchronous functions are programs of the small monad [Prog], whose
      only effects are [fetch], [Date.now()] and a rejected promise;
    - React state is the record [HomeState]; a setter is a record update. *)

From Stdlib Require Import ZArith List String Ascii Bool Lia PeanoNat.
From Equations Require Import Equations.
Import ListNotations.

Local Open Scope string_scope.
Local Open Scope list_scope.
Local Open Scope Z_scope.

(* ===================================================================== *)
(** * JavaScript values                                                   *)
(* ===================================================================== *)

Module JS.

(** The numbers the client computes with are time values: integral
    milliseconds, or [NaN] (the time value of an invalid [Date]). *)
Inductive number : Type :=
| Num (z : Z)
| NaN.

(** [Math.max(a, b)]: [NaN] as soon as one argument is [NaN]. *)
Definition Math_max (a b : number) : number :=
  match a, b with
  | Num x, Num y => Num (Z.max x y)
  | _, _ => NaN
  end.

(** [a - b]. *)
Definition sub (a b : number) : number :=
  match a, b with
  | Num x, Num y => Num (x - y)
  | _, _ => NaN
  end.

(** [a < b] and [a > b]: every comparison with [NaN] is false. *)
Definition lt (a b : number) : bool :=
  match a, b with
  | Num x, Num y => x <? y
  | _, _ => false
  end.

Definition gt (a b : number) : bool := lt b a.

(** Truthiness of a number: [0] and [NaN] are falsy. *)
Definition truthy (a : number) : bool :=
  match a with
  | Num z => negb (z =? 0)
  | NaN => false
  end.

(** Truthiness of a string: only the empty string is falsy. *)
Definition truthy_string (s : string) : bool :=
  negb (String.eqb s "").

#[local] Set Warnings "-register-all".

(** JSON data whose shape the client never inspects ([any]). *)
Inductive value : Type :=
| Null
| Boolean (b : bool)
| Number (z : Z)
| Str (s : string)
| Array (items : list value)
| Object (fields : list (string * value)).

End JS.

(** A [Date] object is its time value; [ValidDate ms] abbreviates a date
    whose time value is the number [ms]. *)
Record Date : Type := mkDate { getTime : JS.number }.

Definition ValidDate (ms : Z) : Date := mkDate (JS.Num ms).
Definition InvalidDate : Date := mkDate JS.NaN.

(* ===================================================================== *)
(** * lib/types                                                           *)
(* ===================================================================== *)

(** Modelled from the spec: the declarations of [lib/types] ([AgentEvent],
    [GuardrailCheck], [Agent]) are not part of the sources at hand; the
    records below follow the wire shapes of the design document,
    [{id, type, agent, content, metadata{}, timestamp}],
    [{id, name, agent, verdict, timestamp}] and
    [{name, description, input_guardrails[], tools[], handoffs[]}], and the
    field accesses of the components.  The record is parametric in the
    type of [timestamp]: a [Date] once parsed, an optional wire value
    before. *)
Record Event (TS : Type) : Type := mkEvent {
  id : string;
  type : string;
  agent : string;
  content : option string;
  metadata : option (list (string * JS.value));
  timestamp : TS
}.

Arguments mkEvent {TS} _ _ _ _ _ _.
Arguments id {TS} _.
Arguments type {TS} _.
Arguments agent {TS} _.
Arguments content {TS} _.
Arguments metadata {TS} _.
Arguments timestamp {TS} _.

Record Guardrail (TS : Type) : Type := mkGuardrail {
  g_id : string;
  g_name : string;
  g_agent : string;
  g_verdict : string;
  g_timestamp : TS
}.

Arguments mkGuardrail {TS} _ _ _ _ _.
Arguments g_id {TS} _.
Arguments g_name {TS} _.
Arguments g_agent {TS} _.
Arguments g_verdict {TS} _.
Arguments g_timestamp {TS} _.

Record Agent : Type := mkAgent {
  name : string;
  description : string;
  input_guardrails : list string;
  tools : list string;
  handoffs : list string
}.

(** Events and guardrail checks as the components hold them. *)
Definition AgentEvent : Type := Event Date.
Definition GuardrailCheck : Type := Guardrail Date.

(** Events and guardrail checks as they arrive in a JSON snapshot: the
    [timestamp] is absent ([null] or [undefined]) or a value [v], kept as
    the date [new Date(v)] it converts to. *)
Definition WireEvent : Type := Event (option Date).
Definition WireGuardrail : Type := Guardrail (option Date).

(** [{...e, timestamp: d}]. *)
Definition with_timestamp {A B : Type} (e : Event A) (d : B) : Event B :=
  mkEvent (id e) (type e) (agent e) (content e) (metadata e) d.

Definition g_with_timestamp {A B : Type} (g : Guardrail A) (d : B)
  : Guardrail B :=
  mkGuardrail (g_id g) (g_name g) (g_agent g) (g_verdict g) d.

Definition Context : Type := list (string * JS.value).

(* ===================================================================== *)
(** * Asynchronous programs                                               *)
(* ===================================================================== *)

(** The two reads of the synchronisation protocol. *)
Inductive Request : Type :=
| GetState (thread_id : string)   (* GET /chatkit/state?thread_id=... *)
| GetBootstrap.                   (* GET /chatkit/bootstrap *)

(** The snapshot object [{thread_id, current_agent, agents, context,
    events, guardrails}] after [res.json()].  A field is [None] when it is
    missing, [null], or (for the three lists) not an array.  The elements
    of the arrays are objects of the wire shapes: an array that holds
    [null], on which the mapping callbacks of [page.tsx] throw a
    [TypeError], is not covered. *)
Module Snapshot.
Record t : Type := mk {
  thread_id : option string;
  current_agent : option string;
  agents : option (list Agent);
  context : option Context;
  events : option (list WireEvent);
  guardrails : option (list WireGuardrail)
}.
End Snapshot.

(** What a fetch helper hands to its caller: [null], another falsy JSON
    value ([false], [0], the empty string), or a truthy value read as a
    snapshot. *)
Inductive Data : Type :=
| DNull
| DFalsy
| DObject (d : Snapshot.t).

(** What [fetch] does: the promise rejects (network error), or resolves
    to a response with its [ok] flag, its status and its body; the body is
    [None] when [res.json()] rejects. *)
Inductive FetchResult : Type :=
| NetworkError
| Response (ok : bool) (status : Z) (body : option Data).

(** Programs: return, a rejected promise, a [fetch], a read of the
    clock. *)
Inductive Prog (A : Type) : Type :=
| Ret (a : A)
| Throw
| Fetch (r : Request) (k : FetchResult -> Prog A)
| Date_now (k : Z -> Prog A).

Arguments Ret {A} _.
Arguments Throw {A}.
Arguments Fetch {A} _ _.
Arguments Date_now {A} _.

Fixpoint bind {A B : Type} (p : Prog A) (f : A -> Prog B) : Prog B :=
  match p with
  | Ret a => f a
  | Throw => Throw
  | Fetch r k => Fetch r (fun x => bind (k x) f)
  | Date_now k => Date_now (fun x => bind (k x) f)
  end.

Declare Scope prog_scope.
Delimit Scope prog_scope with prog.
Notation "x <- p ;; q" := (bind p (fun x => q))
  (at level 61, p at next level, right associativity) : prog_scope.
Local Open Scope prog_scope.

(** [items.map(f)] for an effectful [f], left to right. *)
Fixpoint mapM {A B : Type} (f : A -> Prog B) (l : list A) : Prog (list B) :=
  match l with
  | [] => Ret []
  | x :: l' => y <- f x ;; ys <- mapM f l' ;; Ret (y :: ys)
  end.

(** The environment of a run: the server answering each request, and the
    successive readings of the clock. *)
Record World : Type := mkWorld {
  server : Request -> FetchResult;
  clock : nat -> Z
}.

Inductive Completion (A : Type) : Type :=
| Returned (a : A)
| Rejected.

Arguments Returned {A} _.
Arguments Rejected {A}.

(** The result of a run: how the program completed, how many clock
    readings it consumed, and the requests it issued, oldest first. *)
Record Run (A : Type) : Type := mkRun {
  outcome : Completion A;
  ticks : nat;
  requests : list Request
}.

Arguments mkRun {A} _ _ _.
Arguments outcome {A} _.
Arguments ticks {A} _.
Arguments requests {A} _.

Fixpoint run_from {A : Type} (w : World) (tick : nat) (sent : list Request)
  (p : Prog A) : Run A :=
  match p with
  | Ret a => mkRun (Returned a) tick sent
  | Throw => mkRun Rejected tick sent
  | Fetch r k => run_from w tick (sent ++ [r]) (k (server w r))
  | Date_now k => run_from w (S tick) sent (k (clock w tick))
  end.

Definition run {A : Type} (w : World) (tick : nat) (p : Prog A) : Run A :=
  run_from w tick [] p.

(* ===================================================================== *)
(** * lib/api: the two snapshot reads                                     *)
(* ===================================================================== *)

(** What both helpers do with the outcome of their [fetch]: a rejected
    [fetch] and a response that is not [ok] end in the [catch] block,
    which returns [null]; otherwise the promise [res.json()] is returned
    without being awaited, so its rejection is not caught here. *)
Definition json_or_null (res : FetchResult) : Prog Data :=
  match res with
  | NetworkError => Ret DNull
  | Response ok _ body =>
      if negb ok then Ret DNull
      else match body with
           | Some data => Ret data
           | None => Throw
           end
  end.

(** The URL of the state read is built with
    [encodeURIComponent(threadId)], inside the [try] block.  That call
    throws a [URIError] on a string with an unpaired surrogate, which the
    [catch] block turns into [null] before any request is sent.  The
    strings of this development are sequences of 8-bit characters and
    hold no surrogate: the thread ids covered are those that
    [encodeURIComponent] accepts, and the properties about the requests
    sent are stated for ASCII ids. *)
Definition fetchThreadState (threadId : string) : Prog Data :=
  Fetch (GetState threadId) json_or_null.

Definition fetchBootstrapState : Prog Data :=
  Fetch GetBootstrap json_or_null.

(* ===================================================================== *)
(** * app/page: the Home component                                        *)
(* ===================================================================== *)

(** The seven [useState] cells of [Home]. *)
Module Home.
Record State : Type := mk {
  agents : list Agent;
  events : list AgentEvent;
  currentAgent : string;
  guardrails : list GuardrailCheck;
  context : Context;
  threadId : option string;
  initialThreadId : option string
}.
End Home.

Definition HomeState : Type := Home.State.

Definition initialState : HomeState :=
  Home.mk [] [] "" [] [] None None.

Definition setAgents (v : list Agent) (s : HomeState) : HomeState :=
  Home.mk v (Home.events s) (Home.currentAgent s) (Home.guardrails s)
          (Home.context s) (Home.threadId s) (Home.initialThreadId s).

Definition setEvents (v : list AgentEvent) (s : HomeState) : HomeState :=
  Home.mk (Home.agents s) v (Home.currentAgent s) (Home.guardrails s)
          (Home.context s) (Home.threadId s) (Home.initialThreadId s).

Definition setCurrentAgent (v : string) (s : HomeState) : HomeState :=
  Home.mk (Home.agents s) (Home.events s) v (Home.guardrails s)
          (Home.context s) (Home.threadId s) (Home.initialThreadId s).

Definition setGuardrails (v : list GuardrailCheck) (s : HomeState)
  : HomeState :=
  Home.mk (Home.agents s) (Home.events s) (Home.currentAgent s) v
          (Home.context s) (Home.threadId s) (Home.initialThreadId s).

Definition setContext (v : Context) (s : HomeState) : HomeState :=
  Home.mk (Home.agents s) (Home.events s) (Home.currentAgent s)
          (Home.guardrails s) v (Home.threadId s) (Home.initialThreadId s).

Definition setThreadId (v : option string) (s : HomeState) : HomeState :=
  Home.mk (Home.agents s) (Home.events s) (Home.currentAgent s)
          (Home.guardrails s) (Home.context s) v (Home.initialThreadId s).

Definition setInitialThreadId (v : option string) (s : HomeState)
  : HomeState :=
  Home.mk (Home.agents s) (Home.events s) (Home.currentAgent s)
          (Home.guardrails s) (Home.context s) (Home.threadId s) v.

(** [e.type !== "progress_update"]. *)
Definition not_progress_update (e : AgentEvent) : bool :=
  negb (String.eqb (type e) "progress_update").

(** The constant [latestNonProgress] of [normalizeEvents]: a [reduce] with
    [Math.max] from [0] over the time values of the events that are not
    progress updates. *)
Definition latestNonProgress (items : list AgentEvent) : JS.number :=
  fold_left (fun max e => JS.Math_max max (getTime (timestamp e)))
            (filter not_progress_update items)
            (JS.Num 0).

(** The predicate of the second [filter] of [normalizeEvents]. *)
Definition keep (now : Z) (latest : JS.number) (e : AgentEvent) : bool :=
  if not_progress_update e then true
  else
    let ts := getTime (timestamp e) in
    if JS.truthy latest && JS.lt ts latest then false
    else if JS.gt (JS.sub (JS.Num now) ts) (JS.Num 15000) then false
    else true.

Definition normalizeEvents (items : list AgentEvent)
  : Prog (list AgentEvent) :=
  if (List.length items =? 0)%nat then Ret items
  else
    Date_now (fun now =>
      let latest := latestNonProgress items in
      let pruned := filter (keep now latest) items in
      Ret pruned).

(** [{...e, timestamp: new Date(e.timestamp ?? Date.now())}]. *)
Definition parseEvent (e : WireEvent) : Prog AgentEvent :=
  match timestamp e with
  | Some d => Ret (with_timestamp e d)
  | None => Date_now (fun now => Ret (with_timestamp e (ValidDate now)))
  end.

Definition parseGuardrail (g : WireGuardrail) : Prog GuardrailCheck :=
  match g_timestamp g with
  | Some d => Ret (g_with_timestamp g d)
  | None => Date_now (fun now => Ret (g_with_timestamp g (ValidDate now)))
  end.

(** [x || ""] and [x || null] on an optional string. *)
Definition or_empty (x : option string) : string :=
  match x with
  | Some v => if JS.truthy_string v then v else ""
  | None => ""
  end.

Definition or_null (x : option string) : option string :=
  match x with
  | Some v => if JS.truthy_string v then Some v else None
  | None => None
  end.

Definition hydrateState (id : option string) (s : HomeState)
  : Prog HomeState :=
  match or_null id with
  | None => Ret s
  | Some id =>
      data <- fetchThreadState id ;;
      match data with
      | DNull | DFalsy => Ret s
      | DObject data =>
          let s := setCurrentAgent (or_empty (Snapshot.current_agent data)) s in
          let s := setContext match Snapshot.context data with
                              | Some c => c
                              | None => []
                              end s in
          let s := match Snapshot.agents data with
                   | Some a => setAgents a s
                   | None => s
                   end in
          s <- match Snapshot.events data with
               | Some evs =>
                   parsed <- mapM parseEvent evs ;; Ret (setEvents parsed s)
               | None => Ret s
               end ;;
          match Snapshot.guardrails data with
          | Some gs =>
              parsed <- mapM parseGuardrail gs ;; Ret (setGuardrails parsed s)
          | None => Ret s
          end
      end
  end.

(** The effect that [Home] runs once, when it mounts. *)
Definition bootstrapEffect (s : HomeState) : Prog HomeState :=
  bootstrap <- fetchBootstrapState ;;
  match bootstrap with
  | DNull | DFalsy => Ret s
  | DObject bootstrap =>
      let s := setInitialThreadId (or_null (Snapshot.thread_id bootstrap)) s in
      let s := setThreadId (or_null (Snapshot.thread_id bootstrap)) s in
      let s := match or_null (Snapshot.current_agent bootstrap) with
               | Some a => setCurrentAgent a s
               | None => s
               end in
      let s := match Snapshot.agents bootstrap with
               | Some a => setAgents a s
               | None => s
               end in
      let s := match Snapshot.context bootstrap with
               | Some c => setContext c s
               | None => s
               end in
      s <- match Snapshot.events bootstrap with
           | Some evs =>
               parsed <- mapM parseEvent evs ;;
               shown <- normalizeEvents parsed ;;
               Ret (setEvents shown s)
           | None => Ret s
           end ;;
      match Snapshot.guardrails bootstrap with
      | Some gs =>
          parsed <- mapM parseGuardrail gs ;; Ret (setGuardrails parsed s)
      | None => Ret s
      end
  end.

Definition handleThreadChange (id : option string) (s : HomeState)
  : Prog HomeState :=
  Ret (setThreadId id s).

Definition handleBindThread (id : string) (s : HomeState) : Prog HomeState :=
  Ret (setThreadId (Some id) s).

Definition handleResponseEnd (s : HomeState) : Prog HomeState :=
  hydrateState (Home.threadId s) s.

(* ===================================================================== *)
(** * components/agent-panel                                              *)
(* ===================================================================== *)

(** The events that [AgentPanel] hands to [RunnerOutput]. *)
Definition runnerEvents (events : list AgentEvent) : list AgentEvent :=
  filter (fun e => negb (String.eqb (type e) "message")
                   && negb (String.eqb (type e) "progress_update"))
         events.

(* ===================================================================== *)
(** * components/runner-output                                            *)
(* ===================================================================== *)

(** Matching on a value while remembering which value it is. *)
Definition inspect {A : Type} (x : A) : {y : A | x = y} :=
  exist _ x eq_refl.

(** The condition of the inner [while] once [j < events.length] holds:
    [events[j]] is a tool output of the agent of [current]. *)
Definition continues (current e : AgentEvent) : bool :=
  String.eqb (type e) "tool_output" && String.eqb (agent e) (agent current).

(** The inner [while] loop of [groupRunnerEvents]: from index [j], push
    onto [group] the tool outputs of the agent of [current]; returns the
    group and the index where the loop stopped. *)
Equations? inner_while (events : list AgentEvent) (current : AgentEvent)
  (group : list AgentEvent) (j : nat) : list AgentEvent * nat
  by wf (List.length events - j)%nat lt :=
  inner_while events current group j with inspect (nth_error events j) := {
    | exist _ (Some e) _ with inspect (continues current e) := {
        | exist _ true _ => inner_while events current (group ++ [e]) (S j)
        | exist _ false _ => (group, j) }
    | exist _ None _ => (group, j) }.
Proof.
  assert (j < List.length events)%nat
    by (apply nth_error_Some; congruence).
  lia.
Qed.

Lemma inner_while_index events current group j :
  (j <= snd (inner_while events current group j))%nat.
Proof.
  funelim (inner_while events current group j); simpl; try lia.
Qed.

(** The [for] loop of [groupRunnerEvents], from index [i] with the groups
    pushed so far.  After a tool call the loop resumes at the index where
    the inner loop stopped ([i = j - 1] followed by [i++]). *)
Equations? for_loop (events : list AgentEvent)
  (groups : list (list AgentEvent)) (i : nat) : list (list AgentEvent)
  by wf (List.length events - i)%nat lt :=
  for_loop events groups i with inspect (nth_error events i) := {
    | exist _ None _ => groups
    | exist _ (Some current) _
        with inspect (String.eqb (type current) "tool_call") := {
        | exist _ true _ =>
            for_loop events
              (groups ++ [fst (inner_while events current [current] (S i))])
              (snd (inner_while events current [current] (S i)))
        | exist _ false _ =>
            for_loop events (groups ++ [[current]]) (S i) } }.
Proof.
  all: assert (i < List.length events)%nat
    by (apply nth_error_Some; congruence).
  - pose proof (inner_while_index events current [current] (S i)). lia.
  - lia.
Qed.

Definition groupRunnerEvents (events : list AgentEvent)
  : list (list AgentEvent) :=
  for_loop events [] 0%nat.

(* ===================================================================== *)
(** * components/chatkit-panel                                            *)
(* ===================================================================== *)

(** An effect that the ChatKit widget reports to [onEffect]: its name and
    its [data], which for the runner effects carries [events] or
    [thread_id]. *)
Module Effect.
Record Data : Type := mkData {
  events : option (list WireEvent);
  thread_id : option string
}.
Record t : Type := mk {
  name : string;
  data : option Data
}.
End Effect.

(** A callback of [Home], run against its state. *)
Definition Handler : Type := HomeState -> Prog HomeState.

Record ChatKitPanelProps : Type := mkProps {
  initialThreadId : option string;
  onThreadChange : option (option string -> Handler);
  onResponseEnd : option Handler;
  onRunnerUpdate : option Handler;
  onRunnerEventDelta : option (list WireEvent -> Handler);
  onRunnerBindThread : option (string -> Handler)
}.

(** [f?.()] and [f?.(a)]. *)
Definition call0 (f : option Handler) : Handler :=
  match f with
  | Some h => h
  | None => fun s => Ret s
  end.

Definition call1 {A : Type} (f : option (A -> Handler)) (a : A) : Handler :=
  match f with
  | Some h => h a
  | None => fun s => Ret s
  end.

(** [(arguments as any)?.[0]?.data] inside the arrow function [onEffect]:
    an arrow function has no [arguments] of its own, so this is the first
    argument of the enclosing component function [ChatKitPanel], its
    props object, which has no [data] property. *)
Definition arguments_0_data (props : ChatKitPanelProps)
  : option Effect.Data :=
  None.

(** [onEffect: async ({ name }) => ...]: only [name] is taken from the
    effect. *)
Definition onEffect (props : ChatKitPanelProps) (effect : Effect.t)
  : Handler :=
  fun s =>
    let name := Effect.name effect in
    s <- (if String.eqb name "runner_state_update"
          then call0 (onRunnerUpdate props) s
          else Ret s) ;;
    s <- (if String.eqb name "runner_event_delta"
          then call1 (onRunnerEventDelta props)
                     match arguments_0_data props with
                     | Some d => match Effect.events d with
                                 | Some evs => evs
                                 | None => []
                                 end
                     | None => []
                     end s
          else Ret s) ;;
    if String.eqb name "runner_bind_thread"
    then match arguments_0_data props with
         | Some d => match or_null (Effect.thread_id d) with
                     | Some tid => call1 (onRunnerBindThread props) tid s
                     | None => Ret s
                     end
         | None => Ret s
         end
    else Ret s.

(** What the ChatKit widget can report to the panel. *)
Inductive Notification : Type :=
| ThreadChange (threadId : option string)
| ResponseEnd
| EffectFired (effect : Effect.t).

Definition notify (props : ChatKitPanelProps) (n : Notification) : Handler :=
  match n with
  | ThreadChange threadId => call1 (onThreadChange props) threadId
  | ResponseEnd => call0 (onResponseEnd props)
  | EffectFired effect => onEffect props effect
  end.

(** The props that [Home] passes to [ChatKitPanel]: no [onRunnerUpdate]
    and no [onRunnerEventDelta]. *)
Definition Home_props (s : HomeState) : ChatKitPanelProps :=
  mkProps (Home.initialThreadId s)
          (Some handleThreadChange)
          (Some handleResponseEnd)
          None
          None
          (Some handleBindThread).

(** The effect of [Home] that depends on [threadId]. *)
Definition threadIdEffect (s : HomeState) : Prog HomeState :=
  match or_null (Home.threadId s) with
  | Some _ => hydrateState (Home.threadId s) s
  | None => Ret s
  end.

Definition same_thread (a b : option string) : bool :=
  match a, b with
  | Some x, Some y => String.eqb x y
  | None, None => true
  | _, _ => false
  end.

(** After a render, the [threadId] effect runs again when [threadId]
    changed. *)
Definition rerender (before after : HomeState) : Prog HomeState :=
  if same_thread (Home.threadId before) (Home.threadId after)
  then Ret after
  else threadIdEffect after.

(** Mounting [Home] runs both effects; a notification runs the callback
    that [Home] registered for it.  Each asynchronous callback is run to
    completion before the next one starts. *)
Definition mount (s : HomeState) : Prog HomeState :=
  s0 <- threadIdEffect s ;;
  s1 <- bootstrapEffect s0 ;;
  rerender s0 s1.

Definition step (n : Notification) (s : HomeState) : Prog HomeState :=
  s' <- notify (Home_props s) n s ;;
  rerender s s'.

Fixpoint steps (ns : list Notification) (s : HomeState) : Prog HomeState :=
  match ns with
  | [] => Ret s
  | n :: ns' => s' <- step n s ;; steps ns' s'
  end.



(* ===================================================================== *)
(** * The orchestration engine                                            *)
(* ===================================================================== *)

Module Engine.

(** Modelled from the spec: the event type tags of the data model
    (section 3), as the closed sum that the design notes ask for; the
    backend that declares them is not part of the sources at hand. *)
Inductive EventType : Type :=
| message
| tool_call
| tool_output
| handoff
| context_update
| progress_update
| guardrail_check.

(** Modelled from the spec: the type-specific metadata of an event
    (sections 3 and 4.1): tool name and arguments, a result or an error
    payload, source and target of a handoff, the changed keys of a
    context update, a guardrail verdict. *)
Inductive Metadata : Type :=
| NoMetadata
| ToolRequest (tool args : string)
| ToolResult (result : string)
| ErrorPayload (reason : string)
| HandoffOf (source_agent target_agent : string)
| Changes (diff : list (string * string))
| Verdict (guardrail : string) (pass : bool).

(** Modelled from the spec: an event of the EventLog (section 3).  The
    field [invocation] is not on the wire (section 9 notes that the
    protocol has no invocation identifier): it records which tool
    invocation of the thread a [tool_call] or [tool_output] belongs to,
    so that their pairing can be stated. *)
Record Event : Type := mkEvent {
  type : EventType;
  agent : string;
  content : string;
  metadata : Metadata;
  invocation : option nat
}.

(** Modelled from the spec: how the external tool executor ends
    (sections 4.1 and 5): it completes, fails, or exceeds its time
    bound. *)
Inductive ToolOutcome : Type :=
| Completed (result : string)
| Failed (reason : string)
| TimedOut.

(** Modelled from the spec: what reaches the engine of a thread, one
    thing at a time (sections 4.1 and 5): an inbound message, which asks
    for a turn; the decisions of the external collaborators during the
    turn (handoff, tool call, guardrail verdict, context mutation,
    progress signal, reply, end of the turn); the end of the tool
    executor that is running; a client disconnect or explicit stop; an
    unexpected internal fault.  Between [CallTool] and [ToolEnds] the
    executor is running, and a stop or a fault can arrive then. *)
Inductive Input : Type :=
| Inbound (text : string)
| Handoff (target : string)
| CallTool (tool args : string)
| ToolEnds (outcome : ToolOutcome)
| GuardrailRun (guardrail : string) (pass : bool)
| ContextMutation (diff : list (string * string))
| Progress
| Reply (text : string)
| Done
| Stop
| InternalFault.

(** Modelled from the spec: the Thread aggregate (section 3), with the
    per-thread turn lock of section 5, the count of tool invocations made
    so far, and the invocation whose executor is running, if any. *)
Record Thread : Type := mkThread {
  current_agent : string;
  context : list (string * string);
  log : list Event;
  guardrail_log : list (string * bool);
  invocations : nat;
  turn_lock : bool;
  pending : option nat
}.

(** Modelled from the spec: a new thread (sections 4.3 and 8): the
    default agent of the directory, nothing logged, no turn executing. *)
Definition new_thread (default_agent : string) : Thread :=
  mkThread default_agent [] [] [] 0 false None.

(** Modelled from the spec: the EventLog is append-only (section 3). *)
Definition append (es : list Event) (th : Thread) : Thread :=
  mkThread (current_agent th) (context th) (log th ++ es)
           (guardrail_log th) (invocations th) (turn_lock th) (pending th).

(** Modelled from the spec: taking and releasing the turn lock of the
    thread (section 5). *)
Definition set_lock (b : bool) (th : Thread) : Thread :=
  mkThread (current_agent th) (context th) (log th) (guardrail_log th)
           (invocations th) b (pending th).

(** Modelled from the spec: the metadata of a [tool_output] event
    (sections 4.1 and 7): the result, or an error payload for a failure
    and for a timeout. *)
Definition output_metadata (o : ToolOutcome) : Metadata :=
  match o with
  | Completed result => ToolResult result
  | Failed reason => ErrorPayload reason
  | TimedOut => ErrorPayload "timeout"
  end.

(** Modelled from the spec: the events that the engine appends
    (section 4.1), attributed to the agent [a]. *)
Definition progress_event (a : string) : Event :=
  mkEvent progress_update a "" NoMetadata None.

Definition message_event (a text : string) : Event :=
  mkEvent message a text NoMetadata None.

Definition tool_call_event (a tool args : string) (k : nat) : Event :=
  mkEvent tool_call a tool (ToolRequest tool args) (Some k).

Definition tool_output_event (a : string) (m : Metadata) (k : nat) : Event :=
  mkEvent tool_output a "" m (Some k).

(** Modelled from the spec: the targets that the directory allows the
    agent [a] to hand off to (section 4.1). *)
Definition allowed (directory : list Agent) (a target : string) : bool :=
  match find (fun d => String.eqb (name d) a) directory with
  | Some d => existsb (String.eqb target) (handoffs d)
  | None => false
  end.

(** Modelled from the spec: the tool call is opened by appending its
    [tool_call] event, before the executor is invoked. *)
Definition open_invocation (tool args : string) (th : Thread) : Thread :=
  mkThread (current_agent th) (context th)
           (log th ++ [tool_call_event (current_agent th) tool args
                                       (invocations th)])
           (guardrail_log th) (S (invocations th)) (turn_lock th)
           (Some (invocations th)).

(** Modelled from the spec: the invocation [k] is closed by appending its
    one [tool_output] event, with the payload [m], followed by the events
    [rest]; the turn goes on or not. *)
Definition close_invocation (k : nat) (m : Metadata) (rest : list Event)
  (goes_on : bool) (th : Thread) : Thread :=
  mkThread (current_agent th) (context th)
           (log th ++ tool_output_event (current_agent th) m k :: rest)
           (guardrail_log th) (invocations th) goes_on None.

(** Modelled from the spec: how the engine of a thread reacts to one
    input (sections 4.1, 5 and 7).
    - No turn is executing: an inbound message takes the lock; nothing
      else has an effect.
    - A turn is executing and the tool executor is running: its end
      appends the one [tool_output] event, with the result or an error
      payload; progress may be signalled; a stop appends an error-shaped
      [tool_output] and releases the lock; an internal fault appends an
      error-shaped [tool_output], then the terminal [message], and
      releases the lock.  Another inbound message is rejected, and no
      decision is taken while the engine waits.
    - A turn is executing and no executor is running: a handoff appends
      one [handoff] event and changes [current_agent], together, when the
      target is allowed; a tool call appends its [tool_call] event and
      invokes the executor; a guardrail run appends a [guardrail_check]
      event and on [fail] a [message] that ends the turn,
      [current_agent] unchanged; a context mutation appends one
      [context_update] event and commits the diff; the end of the turn, a
      stop and an internal fault (after its terminal [message]) release
      the lock. *)
Definition step (directory : list Agent) (i : Input) (th : Thread)
  : Thread :=
  let me := current_agent th in
  if negb (turn_lock th) then
    match i with
    | Inbound _ => set_lock true th
    | _ => th
    end
  else
    match pending th with
    | Some k =>
        match i with
        | ToolEnds outcome =>
            close_invocation k (output_metadata outcome) [] true th
        | Progress => append [progress_event me] th
        | Stop => close_invocation k (ErrorPayload "stopped") [] false th
        | InternalFault =>
            close_invocation k (ErrorPayload "internal error")
                             [message_event me "internal error"] false th
        | _ => th
        end
    | None =>
        match i with
        | Inbound _ => th
        | Handoff target =>
            if allowed directory me target
            then mkThread target (context th)
                   (log th ++ [mkEvent handoff me "" (HandoffOf me target)
                                       None])
                   (guardrail_log th) (invocations th) true None
            else th
        | CallTool tool args => open_invocation tool args th
        | ToolEnds _ => th
        | GuardrailRun g pass =>
            mkThread me (context th)
              (log th
               ++ mkEvent guardrail_check me g (Verdict g pass) None
                  :: (if pass then []
                      else [message_event me "guardrail failed"]))
              (guardrail_log th ++ [(g, pass)]) (invocations th) pass None
        | ContextMutation diff =>
            mkThread me (diff ++ context th)
              (log th ++ [mkEvent context_update me "" (Changes diff) None])
              (guardrail_log th) (invocations th) true None
        | Progress => append [progress_event me] th
        | Reply text => append [message_event me text] th
        | Done => set_lock false th
        | Stop => set_lock false th
        | InternalFault =>
            set_lock false (append [message_event me "internal error"] th)
        end
    end.

(** The state of a thread after a sequence of inputs. *)
Definition run (directory : list Agent) (inputs : list Input) (th : Thread)
  : Thread :=
  fold_left (fun th i => step directory i th) inputs th.

(** The ways in which a tool invocation that has been opened can end: the
    executor ends with an outcome, the client stops the turn, or an
    internal fault occurs; with the payload of the [tool_output] event
    and the events that follow it. *)
Inductive Ending : Type :=
| Ends (outcome : ToolOutcome)
| Stopped
| Faulted.

Definition ending_input (e : Ending) : Input :=
  match e with
  | Ends outcome => ToolEnds outcome
  | Stopped => Stop
  | Faulted => InternalFault
  end.

Definition ending_metadata (e : Ending) : Metadata :=
  match e with
  | Ends outcome => output_metadata outcome
  | Stopped => ErrorPayload "stopped"
  | Faulted => ErrorPayload "internal error"
  end.

Definition ending_rest (a : string) (e : Ending) : list Event :=
  match e with
  | Faulted => [message_event a "internal error"]
  | _ => []
  end.

(** An event that does not belong to the invocation [k]. *)
Definition other (k : nat) (e : Event) : Prop := invocation e <> Some k.

(** The tool invocation [k] is settled in a log: the log holds its
    [tool_call], later its [tool_output] by the same agent with only
    progress signals in between, and no other event of [k]. *)
Definition settled (k : nat) (l : list Event) : Prop :=
  exists l1 c l2 o l3,
    l = l1 ++ c :: l2 ++ o :: l3
    /\ type c = tool_call /\ invocation c = Some k
    /\ type o = tool_output /\ invocation o = Some k
    /\ agent o = agent c
    /\ Forall (fun e => type e = progress_update) l2
    /\ Forall (other k) (l1 ++ l2 ++ l3).

(** The tool invocation [k] is open in a log: the log ends with its
    [tool_call], by the agent [a], followed by progress signals only, and
    holds no other event of [k]. *)
Definition open_call (k : nat) (a : string) (l : list Event) : Prop :=
  exists l1 c l2,
    l = l1 ++ c :: l2
    /\ type c = tool_call /\ invocation c = Some k /\ agent c = a
    /\ Forall (fun e => type e = progress_update) l2
    /\ Forall (other k) (l1 ++ l2).

(** An event that belongs to no invocation and is not a tool event. *)
Definition quiet (e : Event) : Prop :=
  invocation e = None /\ type e <> tool_call /\ type e <> tool_output.

(** What a thread satisfies after every input: every event that belongs
    to an invocation belongs to a past one, which is settled, or to the
    one whose executor is running, which is open; every tool event
    belongs to an invocation; an executor runs only while the turn lock
    is held. *)
Definition consistent (th : Thread) : Prop :=
  Forall (fun e =>
            forall k, invocation e = Some k ->
                      (k < invocations th)%nat
                      /\ ((pending th <> Some k /\ settled k (log th))
                          \/ (pending th = Some k
                              /\ open_call k (current_agent th) (log th))))
         (log th)
  /\ Forall (fun e => type e = tool_call \/ type e = tool_output ->
                      invocation e <> None)
            (log th)
  /\ (forall k, pending th = Some k ->
                turn_lock th = true /\ (k < invocations th)%nat
                /\ open_call k (current_agent th) (log th)).

End Engine.

(* ===================================================================== *)
(** * Vocabulary of the properties                                        *)
(* ===================================================================== *)

Definition is_progress_update (e : AgentEvent) : bool :=
  String.eqb (type e) "progress_update".

Definition is_tool_call (e : AgentEvent) : bool :=
  String.eqb (type e) "tool_call".

(** An event whose timestamp is a valid date, and its time value. *)
Definition well_dated (e : AgentEvent) : Prop :=
  exists ms, timestamp e = ValidDate ms.

Definition millis (e : AgentEvent) : Z :=
  match getTime (timestamp e) with
  | JS.Num z => z
  | JS.NaN => 0
  end.

(** [e] is at least as recent as every event of [items] that is not a
    progress update: its timestamp is at least their maximum [M]. *)
Definition not_superseded (items : list AgentEvent) (e : AgentEvent) : Prop :=
  forall e', In e' items -> not_progress_update e' = true ->
             millis e' <= millis e.

(** The retention rule of the staleness filter, for a given reading of
    "recent enough" on the age of a progress update: a progress update of
    [items] is in [shown] exactly when it is not superseded and its age
    is recent enough. *)
Definition retention (recent : Z -> Prop) (now : Z)
  (items shown : list AgentEvent) : Prop :=
  forall e, In e items -> is_progress_update e = true ->
            (In e shown <-> not_superseded items e /\ recent (now - millis e)).

(** The running maximum of the [reduce] of [normalizeEvents], on
    integers. *)
Definition max_millis (l : list AgentEvent) (start : Z) : Z :=
  fold_left (fun m e => Z.max m (millis e)) l start.

Definition count_progress (l : list AgentEvent) : nat :=
  List.length (filter is_progress_update l).

(** The staleness filter followed by the type filter of [AgentPanel] and
    the grouping of [RunnerOutput]. *)
Definition pipeline (items : list AgentEvent)
  : Prog (list (list AgentEvent)) :=
  shown <- normalizeEvents items ;;
  Ret (groupRunnerEvents (runnerEvents shown)).

(** The events of the worked example of the design document: a tool call
    and its output by agent A, dated [t_call] and [t_out], around a
    progress update dated 0. *)
Definition example_tool_call (t_call : Z) : AgentEvent :=
  mkEvent "1" "tool_call" "A" None None (ValidDate t_call).

Definition example_progress : AgentEvent :=
  mkEvent "2" "progress_update" "A" (Some "Thinking") None (ValidDate 0).

Definition example_tool_output (t_out : Z) : AgentEvent :=
  mkEvent "1" "tool_output" "A" None
          (Some [("tool_result", JS.Str "ok")]) (ValidDate t_out).

Definition example_events (t_call t_out : Z) : list AgentEvent :=
  [example_tool_call t_call; example_progress; example_tool_output t_out].

(** A world whose clock always reads [now] and whose server is
    unreachable. *)
Definition offline_at (now : Z) : World :=
  mkWorld (fun _ => NetworkError) (fun _ => now).

(** A progress update that is exactly 15 s old when the clock reads
    1700000015000, and two progress updates of the same date with no
    other event. *)
Definition progress_at (i : string) (ms : Z) : AgentEvent :=
  mkEvent i "progress_update" "A" None None (ValidDate ms).

Definition boundary_items : list AgentEvent :=
  [progress_at "p1" 1700000000000].

Definition two_progress_updates : list AgentEvent :=
  [progress_at "p1" 1700000000000; progress_at "p2" 1700000000000].

(** A server that knows no thread: every state read is answered 404, and
    the bootstrap read by a fresh, empty thread. *)
Definition fresh_snapshot : Snapshot.t :=
  Snapshot.mk (Some "thr_new") (Some "Triage Agent") (Some []) (Some [])
              (Some []) (Some []).

Definition unknown_threads : World :=
  mkWorld (fun r => match r with
                    | GetState _ => Response false 404 None
                    | GetBootstrap =>
                        Response true 200 (Some (DObject fresh_snapshot))
                    end)
          (fun _ => 1700000000000).

(** A client bound to a thread that the server does not know. *)
Definition bound_state : HomeState :=
  Home.mk [] [] "Triage Agent" [] [] (Some "thr_gone") (Some "thr_gone").

(** A program that never reads the bootstrap snapshot. *)
Inductive no_bootstrap {A : Type} : Prog A -> Prop :=
| nb_Ret (a : A) : no_bootstrap (Ret a)
| nb_Throw : no_bootstrap Throw
| nb_Fetch (id : string) (k : FetchResult -> Prog A) :
    (forall x, no_bootstrap (k x)) -> no_bootstrap (Fetch (GetState id) k)
| nb_Date_now (k : Z -> Prog A) :
    (forall x, no_bootstrap (k x)) -> no_bootstrap (Date_now k).

(** A server that serves, for every read, one snapshot whose only event
    is a progress update dated at the epoch. *)
Definition stale_progress : WireEvent :=
  mkEvent "p0" "progress_update" "Triage Agent" (Some "Thinking")
          None (Some (ValidDate 0)).

Definition stale_snapshot : Snapshot.t :=
  Snapshot.mk (Some "thr_1") (Some "Triage Agent") None None
              (Some [stale_progress]) None.

Definition stale_server : World :=
  mkWorld (fun _ => Response true 200 (Some (DObject stale_snapshot)))
          (fun _ => 1700000000000).

(** A wire event and the event it is parsed into: the same fields, and the
    date of the wire timestamp when there is one. *)
Definition parsed_as (w : WireEvent) (e : AgentEvent) : Prop :=
  with_timestamp e tt = with_timestamp w tt
  /\ forall d, timestamp w = Some d -> timestamp e = d.

(** A fetch that fails: the promise rejects, or the response is not
    [ok]. *)
Definition fetch_failed (r : FetchResult) : bool :=
  match r with
  | NetworkError => true
  | Response ok _ _ => negb ok
  end.

(** The tool outputs that directly follow the tool call [current], and
    the events left after them. *)
Fixpoint outputs_of (current : AgentEvent) (rest : list AgentEvent)
  : list AgentEvent :=
  match rest with
  | e :: rest' =>
      if continues current e then e :: outputs_of current rest' else []
  | [] => []
  end.

Fixpoint after_outputs (current : AgentEvent) (rest : list AgentEvent)
  : list AgentEvent :=
  match rest with
  | e :: rest' =>
      if continues current e then after_outputs current rest' else rest
  | [] => []
  end.

Lemma after_outputs_length current rest :
  (List.length (after_outputs current rest) <= List.length rest)%nat.
Proof.
  induction rest as [|e rest IH]; simpl; [lia|].
  destruct (continues current e); simpl; lia.
Qed.

(** The groups of [groupRunnerEvents] read off the list itself: what the
    loop produces from the events that remain at index [i]. *)
Equations? runs (events : list AgentEvent) : list (list AgentEvent)
  by wf (List.length events) lt :=
  runs [] := [];
  runs (current :: rest) with inspect (is_tool_call current) := {
    | exist _ true _ =>
        (current :: outputs_of current rest)
          :: runs (after_outputs current rest)
    | exist _ false _ => [current] :: runs rest }.
Proof.
  pose proof (after_outputs_length current rest). simpl. lia.
Qed.

(** A group that is a tool call followed by tool outputs of its agent, and
    a group that is a single event which is not a tool call. *)
Definition tool_run (g : list AgentEvent) : Prop :=
  exists c outs,
    g = c :: outs /\ is_tool_call c = true
    /\ Forall (fun o => continues c o = true) outs.

Definition single (g : list AgentEvent) : Prop :=
  exists e, g = [e] /\ is_tool_call e = false.

(** No group that starts with a tool call could have taken the first
    event of the next group. *)
Fixpoint maximal (groups : list (list AgentEvent)) : Prop :=
  match groups with
  | [] => True
  | g :: rest =>
      match rest with
      | [] => True
      | g' :: _ =>
          forall c o, hd_error g = Some c -> hd_error g' = Some o ->
                      is_tool_call c = true -> continues c o = false
      end /\ maximal rest
  end.

(** [groups] is the partition of [events], in order, into maximal tool
    runs and single events. *)
Definition partition_into_runs (events : list AgentEvent)
  (groups : list (list AgentEvent)) : Prop :=
  List.concat groups = events
  /\ Forall (fun g => tool_run g \/ single g) groups
  /\ maximal groups.

(* ===================================================================== *)
(** * Further parts of the components                                     *)
(* ===================================================================== *)

(** [s.includes(sub)]. *)
Fixpoint includes (s sub : string) : bool :=
  if String.prefix sub s then true
  else match s with
       | EmptyString => false
       | String _ s' => includes s' sub
       end.



(** [strings.join(sep)]. *)
Fixpoint join (sep : string) (strings : list string) : string :=
  match strings with
  | [] => ""
  | x :: rest =>
      match rest with
      | [] => x
      | _ :: _ => String.append x (String.append sep (join sep rest))
      end
  end.

(** What [RunnerOutput] computes for the card of a group:
    [group[0]?.agent ?? "Agent"] and [group.map((ev) => ev.id).join("-")]. *)
Definition agentName (group : list AgentEvent) : string :=
  match group with
  | e :: _ => agent e
  | [] => "Agent"
  end.

Definition key (group : list AgentEvent) : string :=
  join "-" (map id group).

(** [c.toUpperCase()] on an ASCII character. *)
Definition toUpperCase (c : Ascii.ascii) : Ascii.ascii :=
  let n := Ascii.nat_of_ascii c in
  if ((97 <=? n) && (n <=? 122))%nat then Ascii.ascii_of_nat (n - 32) else c.

(** [s.replace(/_/g, " ")]. *)
Fixpoint replace_underscores (s : string) : string :=
  match s with
  | EmptyString => EmptyString
  | String c s' =>
      String (if Ascii.eqb c "_" then " "%char else c) (replace_underscores s')
  end.

(** [formatEventName] of [RunnerOutput], on ASCII type tags:
    [(type.charAt(0).toUpperCase() + type.slice(1)).replace(/_/g, " ")]. *)
Definition formatEventName (type : string) : string :=
  replace_underscores
    match type with
    | EmptyString => EmptyString
    | String c rest => String (toUpperCase c) rest
    end.

(* ===================================================================== *)
(** * Further vocabulary                                                  *)
(* ===================================================================== *)

(** The two tests of the staleness filter on a progress update [p], as a
    decision: [p] is at least as recent as every event of [items] that is
    not a progress update, and it is at most 15 s old. *)
Definition passes (now : Z) (items : list AgentEvent) (p : AgentEvent)
  : bool :=
  forallb (fun e => negb (not_progress_update e) || (millis e <=? millis p))
          items
  && (now - millis p <=? 15000).



(** A client that knows the events e1, e2 and e3 of its thread, and a
    delta batch that delivers e3 again together with the new event e4. *)
Definition known_event (i : string) (ms : Z) : AgentEvent :=
  mkEvent i "message" "Triage Agent" (Some "hello") None (ValidDate ms).


Definition knows_three : HomeState :=
  Home.mk [] [known_event "e1" 1; known_event "e2" 2; known_event "e3" 3]
          "Triage Agent" [] [] (Some "thr_1") (Some "thr_1").


(** [l] is [l'] with some elements removed. *)
Inductive subseq {A : Type} : list A -> list A -> Prop :=
| subseq_nil : subseq [] []
| subseq_skip (x : A) (l l' : list A) : subseq l l' -> subseq l (x :: l')
| subseq_keep (x : A) (l l' : list A) :
    subseq l l' -> subseq (x :: l) (x :: l').

(** An event whose timestamp is an invalid date. *)
Definition invalid_date (e : AgentEvent) : bool :=
  match getTime (timestamp e) with
  | JS.NaN => true
  | JS.Num _ => false
  end.

(** A string without the separator of the card keys. *)
Fixpoint dash_free (s : string) : bool :=
  match s with
  | EmptyString => true
  | String c s' => negb (Ascii.eqb c "-") && dash_free s'
  end.

(** A string of ASCII characters, and a string without underscore. *)
Fixpoint is_ascii (s : string) : bool :=
  match s with
  | EmptyString => true
  | String c s' => (Ascii.nat_of_ascii c <? 128)%nat && is_ascii s'
  end.

Fixpoint no_underscore (s : string) : bool :=
  match s with
  | EmptyString => true
  | String c s' => negb (Ascii.eqb c "_") && no_underscore s'
  end.

(** The id of the first event of a group. *)
Definition first_id (group : list AgentEvent) : string :=
  match group with
  | e :: _ => id e
  | [] => ""
  end.

(** The first events of the groups. *)
Definition heads (groups : list (list AgentEvent)) : list AgentEvent :=
  flat_map (firstn 1) groups.

(** The events and the guardrail checks that parsing a snapshot yields
    when the clock is read from [tick] on, with the next tick. *)
Fixpoint parsed_events (w : World) (tick : nat) (evs : list WireEvent)
  : list AgentEvent * nat :=
  match evs with
  | [] => ([], tick)
  | e :: evs' =>
      match timestamp e with
      | Some d =>
          (with_timestamp e d :: fst (parsed_events w tick evs'),
           snd (parsed_events w tick evs'))
      | None =>
          (with_timestamp e (ValidDate (clock w tick))
             :: fst (parsed_events w (S tick) evs'),
           snd (parsed_events w (S tick) evs'))
      end
  end.

Fixpoint parsed_guardrails (w : World) (tick : nat) (gs : list WireGuardrail)
  : list GuardrailCheck * nat :=
  match gs with
  | [] => ([], tick)
  | g :: gs' =>
      match g_timestamp g with
      | Some d =>
          (g_with_timestamp g d :: fst (parsed_guardrails w tick gs'),
           snd (parsed_guardrails w tick gs'))
      | None =>
          (g_with_timestamp g (ValidDate (clock w tick))
             :: fst (parsed_guardrails w (S tick) gs'),
           snd (parsed_guardrails w (S tick) gs'))
      end
  end.

(** The state that a state snapshot [d] leaves when [hydrateState] has
    run on the state [s], with the next tick of the clock. *)
Definition hydrated (w : World) (tick : nat) (d : Snapshot.t)
  (s : HomeState) : HomeState * nat :=
  let s1 := setCurrentAgent (or_empty (Snapshot.current_agent d)) s in
  let s2 := setContext match Snapshot.context d with
                       | Some c => c
                       | None => []
                       end s1 in
  let s3 := match Snapshot.agents d with
            | Some a => setAgents a s2
            | None => s2
            end in
  let s4 := match Snapshot.events d with
            | Some evs => (setEvents (fst (parsed_events w tick evs)) s3,
                           snd (parsed_events w tick evs))
            | None => (s3, tick)
            end in
  match Snapshot.guardrails d with
  | Some gs => (setGuardrails (fst (parsed_guardrails w (snd s4) gs)) (fst s4),
                snd (parsed_guardrails w (snd s4) gs))
  | None => s4
  end.

(** The same for a bootstrap snapshot [b] and the bootstrap effect. *)
Definition bootstrapped (w : World) (tick : nat) (b : Snapshot.t)
  (s : HomeState) : HomeState * nat :=
  let s1 := setInitialThreadId (or_null (Snapshot.thread_id b)) s in
  let s2 := setThreadId (or_null (Snapshot.thread_id b)) s1 in
  let s3 := match or_null (Snapshot.current_agent b) with
            | Some a => setCurrentAgent a s2
            | None => s2
            end in
  let s4 := match Snapshot.agents b with
            | Some a => setAgents a s3
            | None => s3
            end in
  let s5 := match Snapshot.context b with
            | Some c => setContext c s4
            | None => s4
            end in
  let s6 := match Snapshot.events b with
            | Some evs =>
                let parsed := fst (parsed_events w tick evs) in
                let tick' := snd (parsed_events w tick evs) in
                (setEvents (filter (keep (clock w tick')
                                         (latestNonProgress parsed)) parsed)
                           s5,
                 match parsed with
                 | [] => tick'
                 | _ :: _ => S tick'
                 end)
            | None => (s5, tick)
            end in
  match Snapshot.guardrails b with
  | Some gs => (setGuardrails (fst (parsed_guardrails w (snd s6) gs)) (fst s6),
                snd (parsed_guardrails w (snd s6) gs))
  | None => s6
  end.

(** A thread id, if any, of ASCII characters: [encodeURIComponent]
    accepts it. *)
Definition ascii_id (t : option string) : bool :=
  match t with
  | Some i => is_ascii i
  | None => true
  end.

(** The thread whose state a notification can make [Home] read: the new
    thread of a thread change, the bound thread when a response ends. *)
Definition read_thread (n : Notification) (s : HomeState) : option string :=
  match n with
  | ThreadChange t => t
  | ResponseEnd => Home.threadId s
  | EffectFired _ => None
  end.

(** A world whose server answers every read with the status 200 and a
    body that is not JSON. *)
Definition not_json_at (now : Z) : World :=
  mkWorld (fun _ => Response true 200 None) (fun _ => now).

(** A server that answers the bootstrap read with the thread [thr_1] and
    the state read of that thread with a progress update of 1970. *)
Definition bootstrap_then_state : World :=
  mkWorld (fun r => match r with
                    | GetBootstrap =>
                        Response true 200
                          (Some (DObject
                                   (Snapshot.mk (Some "thr_1")
                                      (Some "Triage Agent") (Some [])
                                      (Some []) (Some []) (Some []))))
                    | GetState _ =>
                        Response true 200 (Some (DObject stale_snapshot))
                    end)
          (fun _ => 1700000000000).

(* ===================================================================== *)
(** * Running programs                                                    *)
(* ===================================================================== *)

Lemma run_from_bind {A B : Type} (w : World) (p : Prog A) (f : A -> Prog B) :
  forall tick sent,
    run_from w tick sent (bind p f) =
    match outcome (run_from w tick sent p) with
    | Returned a =>
        run_from w (ticks (run_from w tick sent p))
                 (requests (run_from w tick sent p)) (f a)
    | Rejected =>
        mkRun Rejected (ticks (run_from w tick sent p))
              (requests (run_from w tick sent p))
    end.
Proof.
  induction p as [a| |r k IH|k IH]; intros tick sent; simpl; auto.
Qed.

Lemma run_from_ret {A : Type} (w : World) tick sent (a : A) :
  run_from w tick sent (Ret a) = mkRun (Returned a) tick sent.
Proof. reflexivity. Qed.

(** Parsing the events of a snapshot returns, issues no request, and
    yields the same events in the same order. *)
Lemma run_from_parse_events (w : World) (evs : list WireEvent) :
  forall tick sent,
  exists parsed tick',
    run_from w tick sent (mapM parseEvent evs)
    = mkRun (Returned parsed) tick' sent
    /\ Forall2 parsed_as evs parsed.
Proof.
  induction evs as [|e evs IH]; intros tick sent; simpl.
  - exists [], tick. split; [reflexivity | constructor].
  - unfold parseEvent at 1.
    destruct (timestamp e) as [d|] eqn:Ets; simpl.
    + destruct (IH tick sent) as (parsed & tick' & Hrun & Hall).
      rewrite run_from_bind, Hrun. simpl.
      exists (with_timestamp e d :: parsed), tick'. split; [reflexivity|].
      constructor; [|exact Hall].
      split; [reflexivity | intros d' Hd; simpl; rewrite Ets in Hd; congruence].
    + destruct (IH (S tick) sent) as (parsed & tick' & Hrun & Hall).
      rewrite run_from_bind, Hrun. simpl.
      exists (with_timestamp e (ValidDate (clock w tick)) :: parsed), tick'.
      split; [reflexivity|].
      constructor; [|exact Hall].
      split; [reflexivity | intros d' Hd; simpl; rewrite Ets in Hd; congruence].
Qed.

Lemma run_from_parse_guardrails (w : World) (gs : list WireGuardrail) :
  forall tick sent,
  exists parsed tick',
    run_from w tick sent (mapM parseGuardrail gs)
    = mkRun (Returned parsed) tick' sent.
Proof.
  induction gs as [|g gs IH]; intros tick sent; simpl.
  - exists [], tick. reflexivity.
  - unfold parseGuardrail at 1.
    destruct (g_timestamp g) as [d|]; simpl.
    + destruct (IH tick sent) as (parsed & tick' & Hrun).
      rewrite run_from_bind, Hrun. simpl. eauto.
    + destruct (IH (S tick) sent) as (parsed & tick' & Hrun).
      rewrite run_from_bind, Hrun. simpl. eauto.
Qed.

Lemma run_from_normalizeEvents (w : World) (items : list AgentEvent) :
  forall tick sent,
    run_from w tick sent (normalizeEvents items)
    = match items with
      | [] => mkRun (Returned []) tick sent
      | _ => mkRun (Returned (filter (keep (clock w tick)
                                           (latestNonProgress items)) items))
                   (S tick) sent
      end.
Proof.
  intros tick sent. destruct items; reflexivity.
Qed.

(* ===================================================================== *)
(** * The progress staleness filter                                       *)
(* ===================================================================== *)

Section Staleness.

Lemma well_dated_time e :
  well_dated e -> getTime (timestamp e) = JS.Num (millis e).
Proof.
  intros [ms H]. unfold millis. rewrite H. reflexivity.
Qed.

Lemma reduce_max_well_dated (l : list AgentEvent) :
  Forall well_dated l ->
  forall start,
    fold_left (fun max e => JS.Math_max max (getTime (timestamp e)))
              l (JS.Num start)
    = JS.Num (max_millis l start).
Proof.
  induction 1 as [|e l He Hl IH]; intros start; simpl; [reflexivity|].
  rewrite (well_dated_time e He). simpl. apply IH.
Qed.

Lemma max_millis_lower l : forall start, start <= max_millis l start.
Proof.
  induction l as [|e l IH]; intros start; simpl; [lia|].
  specialize (IH (Z.max start (millis e))). lia.
Qed.

Lemma max_millis_upper l :
  forall start e, In e l -> millis e <= max_millis l start.
Proof.
  induction l as [|x l IH]; intros start e Hin; simpl; [destruct Hin|].
  destruct Hin as [->|Hin].
  - pose proof (max_millis_lower l (Z.max start (millis e))). lia.
  - apply IH. exact Hin.
Qed.

Lemma max_millis_attained l :
  forall start,
    max_millis l start = start
    \/ exists e, In e l /\ millis e = max_millis l start.
Proof.
  induction l as [|x l IH]; intros start; simpl; [left; reflexivity|].
  destruct (IH (Z.max start (millis x))) as [H|(e & Hin & He)].
  - destruct (Z.max_spec start (millis x)) as [[_ Hm]|[_ Hm]].
    + right. exists x. split; [left; reflexivity|]. lia.
    + left. lia.
  - right. exists e. split; [right; exact Hin | exact He].
Qed.

(** On well-dated events [latestNonProgress] is the maximum of [0] and
    of the timestamps of the events that are not progress updates. *)
Lemma latestNonProgress_well_dated items :
  Forall well_dated items ->
  latestNonProgress items
  = JS.Num (max_millis (filter not_progress_update items) 0).
Proof.
  intros H. unfold latestNonProgress.
  apply reduce_max_well_dated.
  apply Forall_forall. intros e He. apply filter_In in He.
  rewrite Forall_forall in H. apply H. tauto.
Qed.

Lemma not_progress_update_negb e :
  not_progress_update e = negb (is_progress_update e).
Proof. reflexivity. Qed.

(** The filter predicate on a well-dated progress update, in
    arithmetic. *)
Lemma keep_progress now latest e :
  well_dated e -> is_progress_update e = true ->
  (keep now (JS.Num latest) e = true
   <-> (latest = 0 \/ latest <= millis e) /\ now - millis e <= 15000).
Proof.
  intros He Hp. unfold keep.
  rewrite not_progress_update_negb, Hp. simpl.
  rewrite (well_dated_time e He). simpl. unfold JS.gt. simpl.
  destruct (Z.eqb_spec latest 0) as [H0|H0];
    destruct (Z.ltb_spec (millis e) latest);
    destruct (Z.ltb_spec 15000 (now - millis e)); simpl;
    split; intros; try discriminate; try reflexivity; lia.
Qed.

Lemma keep_not_progress now latest e :
  is_progress_update e = false -> keep now latest e = true.
Proof.
  intros Hp. unfold keep. rewrite not_progress_update_negb, Hp.
  reflexivity.
Qed.

(** With a clock that reads at least 15 s, the test against
    [latestNonProgress] is the test against every event that is not a
    progress update, also when [latestNonProgress] is [0]. *)
Lemma keep_progress_iff now items e :
  Forall well_dated items -> 15000 <= now ->
  In e items -> is_progress_update e = true ->
  (keep now (latestNonProgress items) e = true
   <-> not_superseded items e /\ now - millis e <= 15000).
Proof.
  intros Hall Hnow Hin Hp.
  rewrite (latestNonProgress_well_dated items Hall).
  assert (He : well_dated e)
    by (rewrite Forall_forall in Hall; apply Hall; exact Hin).
  rewrite (keep_progress now _ e He Hp).
  set (others := filter not_progress_update items).
  pose proof (max_millis_lower others 0) as Hlow.
  split.
  - intros [Hlatest Hage]. split; [|exact Hage].
    intros e' Hin' Hnp.
    assert (Hup : millis e' <= max_millis others 0)
      by (apply max_millis_upper, filter_In; tauto).
    lia.
  - intros [Hsup Hage]. split; [|exact Hage].
    destruct (max_millis_attained others 0) as [H0|(e' & Hin' & He')].
    + left. exact H0.
    + right. rewrite <- He'. apply filter_In in Hin'.
      apply Hsup; tauto.
Qed.

End Staleness.

(* ===================================================================== *)
(** * The grouping loop                                                   *)
(* ===================================================================== *)

Section Grouping.

Lemma skipn_nth_error_Some {A : Type} (l : list A) :
  forall j e, nth_error l j = Some e -> skipn j l = e :: skipn (S j) l.
Proof.
  induction l as [|x l IH]; intros [|j] e H; simpl in *;
    try discriminate.
  - congruence.
  - apply IH. exact H.
Qed.

Lemma skipn_nth_error_None {A : Type} (l : list A) :
  forall j, nth_error l j = None -> skipn j l = [].
Proof.
  induction l as [|x l IH]; intros [|j] H; simpl in *;
    try discriminate; auto.
Qed.

(** Unfold [skipn] at the index that the loop has just read. *)
Ltac skipn_here :=
  match goal with
  | E : nth_error _ _ = Some _ |- _ =>
      rewrite (skipn_nth_error_Some _ _ _ E)
  | E : nth_error _ _ = None |- _ =>
      rewrite (skipn_nth_error_None _ _ E)
  end.

(** Use the outcome of the test that the loop has just made. *)
Ltac rewrite_test :=
  try match goal with
      | C : continues _ _ = _ |- _ => rewrite C
      | C : String.eqb _ _ = _ |- _ => unfold is_tool_call; rewrite C
      end.

(** The inner loop collects [outputs_of] and stops right after them. *)
Lemma inner_while_spec events current group j :
  inner_while events current group j
  = (group ++ outputs_of current (skipn j events),
     (j + List.length (outputs_of current (skipn j events)))%nat).
Proof.
  funelim (inner_while events current group j); skipn_here;
    try match goal with
        | IH : inner_while _ _ _ _ = (_, _) |- _ => rewrite IH
        end;
    cbn [outputs_of]; rewrite_test;
    cbn [List.length]; rewrite <- ?app_assoc, ?app_nil_r;
    cbn [app]; f_equal; lia.
Qed.

Lemma skipn_outputs_of current rest :
  skipn (List.length (outputs_of current rest)) rest
  = after_outputs current rest.
Proof.
  induction rest as [|e rest IH]; simpl; [reflexivity|].
  destruct (continues current e); simpl; [exact IH | reflexivity].
Qed.

Lemma runs_cons current rest :
  runs (current :: rest)
  = if is_tool_call current
    then (current :: outputs_of current rest)
           :: runs (after_outputs current rest)
    else [current] :: runs rest.
Proof.
  simp runs. generalize (inspect (is_tool_call current)).
  intros [[|] Hb]; simpl; rewrite Hb; reflexivity.
Qed.

(** The outer loop appends the [runs] of the events that remain. *)
Lemma for_loop_spec events groups i :
  for_loop events groups i = groups ++ runs (skipn i events).
Proof.
  funelim (for_loop events groups i); skipn_here;
    rewrite ?runs_cons; simp runs;
    try match goal with
        | IH : for_loop _ _ _ = _ ++ _ |- _ => rewrite IH
        end;
    rewrite_test;
    rewrite ?inner_while_spec; cbn [fst snd];
    rewrite <- ?app_assoc, ?app_nil_r; cbn [app]; try reflexivity.
  rewrite (Nat.add_comm (S i)), <- skipn_skipn, skipn_outputs_of.
  reflexivity.
Qed.

Lemma groupRunnerEvents_runs events :
  groupRunnerEvents events = runs events.
Proof.
  unfold groupRunnerEvents. rewrite for_loop_spec. reflexivity.
Qed.

Lemma outputs_of_split current rest :
  outputs_of current rest ++ after_outputs current rest = rest.
Proof.
  induction rest as [|e rest IH]; simpl; [reflexivity|].
  destruct (continues current e); simpl; [f_equal; exact IH | reflexivity].
Qed.

Lemma outputs_of_continue current rest :
  Forall (fun o => continues current o = true) (outputs_of current rest).
Proof.
  induction rest as [|e rest IH]; simpl; [constructor|].
  destruct (continues current e) eqn:C; constructor; assumption.
Qed.

Lemma after_outputs_stop current rest :
  forall o, hd_error (after_outputs current rest) = Some o ->
            continues current o = false.
Proof.
  induction rest as [|e rest IH]; simpl; intros o H; [discriminate|].
  destruct (continues current e) eqn:C; [apply IH; exact H|].
  simpl in H. congruence.
Qed.

Lemma runs_concat events : List.concat (runs events) = events.
Proof.
  funelim (runs events); simp runs; simpl; [reflexivity| |].
  - match goal with IH : List.concat _ = _ |- _ => rewrite IH end.
    f_equal. apply outputs_of_split.
  - match goal with IH : List.concat _ = _ |- _ => rewrite IH end.
    reflexivity.
Qed.

Lemma runs_groups events :
  Forall (fun g => tool_run g \/ single g) (runs events).
Proof.
  funelim (runs events); simp runs; constructor; auto.
  - left. exists current, (outputs_of current rest).
    repeat split; auto using outputs_of_continue.
  - right. exists current. split; auto.
Qed.

Lemma runs_first_group e rest :
  exists g gs, runs (e :: rest) = (e :: g) :: gs.
Proof.
  simp runs. destruct (inspect (is_tool_call e)) as [[|] H]; simpl; eauto.
Qed.

Lemma runs_maximal events : maximal (runs events).
Proof.
  funelim (runs events); simp runs; simpl; auto.
  - split; [|assumption].
    destruct (after_outputs current rest) as [|o left] eqn:Hleft.
    + simp runs. exact I.
    + destruct (runs_first_group o left) as (g & gs & Hruns).
      rewrite Hruns. intros c o' Hc Ho' _. simpl in Hc, Ho'.
      injection Hc as <-. injection Ho' as <-.
      apply (after_outputs_stop current rest). rewrite Hleft. reflexivity.
  - split; [|assumption].
    destruct rest as [|o left]; [simp runs; exact I|].
    destruct (runs_first_group o left) as (g & gs & Hruns).
    rewrite Hruns. intros c o' Hc _ Htc. simpl in Hc.
    injection Hc as <-. congruence.
Qed.

End Grouping.

(* ===================================================================== *)
(** * Properties of the grouping                                          *)
(* ===================================================================== *)

Section GroupingProperties.

Lemma outputs_of_app current outs rest :
  Forall (fun o => continues current o = true) outs ->
  (forall o, hd_error rest = Some o -> continues current o = false) ->
  outputs_of current (outs ++ rest) = outs
  /\ after_outputs current (outs ++ rest) = rest.
Proof.
  intros Houts Hrest. induction Houts as [|o outs Ho _ IH]; simpl.
  - destruct rest as [|o rest]; [split; reflexivity|].
    simpl. rewrite (Hrest o eq_refl). split; reflexivity.
  - rewrite Ho. destruct IH as [-> ->]. split; reflexivity.
Qed.

Lemma concat_head (g : list AgentEvent) gs :
  g <> [] -> hd_error (List.concat (g :: gs)) = hd_error g.
Proof.
  destruct g; [congruence | reflexivity].
Qed.

(** The partition into maximal runs is unique: the grouping loop
    computes the only one. *)
Lemma partition_into_runs_unique groups :
  forall events,
    partition_into_runs events groups -> groups = runs events.
Proof.
  induction groups as [|g gs IH]; intros events (Hcat & Hwf & Hmax).
  - simpl in Hcat. subst events. simp runs. reflexivity.
  - inversion Hwf as [|? ? Hg Hgs]; subst.
    destruct Hmax as [Hnext Hmax].
    assert (Htail : partition_into_runs (List.concat gs) gs)
      by (repeat split; assumption).
    specialize (IH _ Htail).
    assert (Hhead : forall o, hd_error (List.concat gs) = Some o ->
                              hd_error (hd [] gs) = Some o).
    { intros o Ho. destruct gs as [|g' gs']; [discriminate|].
      inversion Hgs as [|? ? Hg' _]; subst.
      rewrite concat_head in Ho; [exact Ho|].
      destruct Hg' as [(c & outs & -> & _)|(e & -> & _)]; discriminate. }
    simpl. destruct Hg as [(c & outs & -> & Hc & Houts)|(e & -> & He)].
    + simpl. rewrite runs_cons, Hc.
      destruct (outputs_of_app c outs (List.concat gs) Houts) as [-> ->].
      * intros o Ho. apply Hhead in Ho.
        destruct gs as [|g' gs']; [discriminate|].
        apply (Hnext c o); auto.
      * rewrite <- IH. reflexivity.
    + simpl. rewrite runs_cons, He, <- IH. reflexivity.
Qed.

End GroupingProperties.

(** The loop on a short log: the output of another agent and the events
    after a handoff start groups of their own. *)
Example groupRunnerEvents_short_log :
  let ev (i t a : string) : AgentEvent :=
    mkEvent i t a None None (ValidDate 0) in
  groupRunnerEvents
    [ev "1" "tool_call" "A"; ev "2" "tool_output" "A";
     ev "3" "tool_output" "A"; ev "4" "tool_output" "B";
     ev "5" "handoff" "A"; ev "6" "tool_call" "B"; ev "7" "tool_call" "B";
     ev "8" "tool_output" "B"]
  = [[ev "1" "tool_call" "A"; ev "2" "tool_output" "A";
      ev "3" "tool_output" "A"];
     [ev "4" "tool_output" "B"];
     [ev "5" "handoff" "A"];
     [ev "6" "tool_call" "B"];
     [ev "7" "tool_call" "B"; ev "8" "tool_output" "B"]].
Proof. reflexivity. Qed.

(** C4: the grouping of the runner output partitions the events, in
    order, into maximal runs made of a tool call followed by the tool
    outputs of the same agent that come right after it, every other event
    being a group of its own; concatenating the groups gives back the
    events, so that every event is in exactly one group. *)
Theorem groupRunnerEvents_partition (events : list AgentEvent) :
  partition_into_runs events (groupRunnerEvents events).
Proof.
  rewrite groupRunnerEvents_runs. repeat split.
  - apply runs_concat.
  - apply runs_groups.
  - apply runs_maximal.
Qed.

(** C6: grouping is idempotent: flattening the groups and grouping again
    gives the same groups. *)
Theorem groupRunnerEvents_idempotent (events : list AgentEvent) :
  groupRunnerEvents (List.concat (groupRunnerEvents events))
  = groupRunnerEvents events.
Proof.
  rewrite !groupRunnerEvents_runs, runs_concat.
  reflexivity.
Qed.

(* ===================================================================== *)
(** * Properties of the staleness filter                                  *)
(* ===================================================================== *)

Lemma count_progress_filter (f : AgentEvent -> bool) (l : list AgentEvent) :
  (count_progress (filter f l) <= count_progress l)%nat.
Proof.
  unfold count_progress.
  induction l as [|e l IH]; simpl; [lia|].
  destruct (f e); simpl; destruct (is_progress_update e); simpl; lia.
Qed.

Lemma run_from_normalizeEvents_ticks (w : World) (items : list AgentEvent)
  (tick : nat) (sent : list Request) :
  exists tick',
    run_from w tick sent (normalizeEvents items)
    = mkRun (Returned (filter (keep (clock w tick) (latestNonProgress items))
                              items))
            tick' sent.
Proof.
  rewrite run_from_normalizeEvents. destruct items; eauto.
Qed.

(** The type filter of [AgentPanel] lets no progress update through. *)
Lemma runnerEvents_no_progress (l : list AgentEvent) :
  count_progress (runnerEvents l) = 0%nat.
Proof.
  unfold count_progress, runnerEvents.
  induction l as [|e l IH]; simpl; [reflexivity|].
  unfold is_progress_update at 1.
  destruct (String.eqb (type e) "message"); simpl; [exact IH|].
  destruct (String.eqb (type e) "progress_update") eqn:Hp; simpl;
    [exact IH|].
  unfold is_progress_update. rewrite Hp. exact IH.
Qed.

(** The filter returns, and what it returns is the [filter] of its
    second pass at the reading of the clock. *)
Lemma normalizeEvents_returns (w : World) (tick : nat)
  (items : list AgentEvent) :
  outcome (run w tick (normalizeEvents items))
  = Returned (filter (keep (clock w tick) (latestNonProgress items)) items).
Proof.
  unfold run. rewrite run_from_normalizeEvents.
  destruct items; reflexivity.
Qed.

(** C1, as stated, fails: a progress update that is exactly 15 s old is
    kept, although its age is not strictly below 15 s. *)
Lemma retention_strict_counterexample :
  outcome (run (offline_at 1700000015000) 0 (normalizeEvents boundary_items))
  = Returned boundary_items
  /\ ~ retention (fun age => age < 15000) 1700000015000
                 boundary_items boundary_items.
Proof.
  split; [reflexivity|].
  intros H.
  destruct (H (progress_at "p1" 1700000000000)) as [Hshown _];
    [left; reflexivity | reflexivity |].
  destruct Hshown as [_ Hage]; [left; reflexivity|].
  simpl in Hage. lia.
Qed.

(** C1 (amended): for well-dated events and a clock past its first 15 s,
    the staleness filter returns, keeps every event that is not a
    progress update, and keeps a progress update if and only if its
    timestamp is at least the maximum timestamp [M] of the other events
    and its age is at most 15 s (15000 ms included). *)
Theorem normalizeEvents_retention (w : World) (tick : nat)
  (items : list AgentEvent) :
  Forall well_dated items ->
  15000 <= clock w tick ->
  exists shown,
    outcome (run w tick (normalizeEvents items)) = Returned shown
    /\ retention (fun age => age <= 15000) (clock w tick) items shown
    /\ (forall e, In e items -> is_progress_update e = false -> In e shown).
Proof.
  intros Hdated Hnow.
  exists (filter (keep (clock w tick) (latestNonProgress items)) items).
  split; [apply normalizeEvents_returns|]. split.
  - intros e Hin Hp. rewrite filter_In.
    rewrite (keep_progress_iff _ items e Hdated Hnow Hin Hp). tauto.
  - intros e Hin Hp. apply filter_In. split; [exact Hin|].
    apply keep_not_progress. exact Hp.
Qed.

Lemma normalizeEvents_retention_witness :
  exists shown,
    outcome (run (offline_at 1700000000100) 0
                 (normalizeEvents (example_events 1700000000000 1700000000050)))
    = Returned shown
    /\ retention (fun age => age <= 15000) 1700000000100
                 (example_events 1700000000000 1700000000050) shown
    /\ (forall e, In e (example_events 1700000000000 1700000000050) ->
                  is_progress_update e = false -> In e shown).
Proof.
  apply (normalizeEvents_retention (offline_at 1700000000100) 0
           (example_events 1700000000000 1700000000050)).
  - repeat constructor; eexists; reflexivity.
  - simpl. lia.
Defined.

(** C3, as stated, fails: two progress updates of the same date, with no
    other event, are both displayed. *)
Lemma two_progress_updates_counterexample :
  outcome (run (offline_at 1700000001000) 0
               (normalizeEvents two_progress_updates))
  = Returned two_progress_updates
  /\ ~ (count_progress two_progress_updates <= 1)%nat.
Proof.
  split; [reflexivity|]. vm_compute. lia.
Qed.

Lemma passes_spec (now : Z) (items : list AgentEvent) (p : AgentEvent) :
  passes now items p = true
  <-> not_superseded items p /\ now - millis p <= 15000.
Proof.
  unfold passes, not_superseded.
  rewrite andb_true_iff, forallb_forall, Z.leb_le. split.
  - intros [Hall Hage]. split; [|exact Hage].
    intros e He Hnp. specialize (Hall e He). rewrite Hnp in Hall.
    simpl in Hall. apply Z.leb_le. exact Hall.
  - intros [Hall Hage]. split; [|exact Hage].
    intros e He. destruct (not_progress_update e) eqn:Hnp; [|reflexivity].
    simpl. apply Z.leb_le. apply Hall; assumption.
Qed.

Lemma filter_filter_and {A : Type} (f g : A -> bool) (l : list A) :
  filter f (filter g l) = filter (fun x => f x && g x) l.
Proof.
  induction l as [|x l IH]; simpl; [reflexivity|].
  destruct (g x); simpl; destruct (f x); simpl; rewrite ?IH; reflexivity.
Qed.

(** C3 (amended): for well-dated events and a clock past its first 15 s,
    the progress updates that the filter displays are exactly the
    progress updates of its input that pass both tests (not older than
    any event that is not a progress update, and at most 15 s old), in the
    order and as often as in the input: the filter keeps every one of
    them, so it may display several, never more than its input holds, and
    it displays no other.  (What [AgentPanel] hands to the runner output
    holds no progress update at all.) *)
Theorem normalizeEvents_progress_shown (w : World) (tick : nat)
  (items : list AgentEvent) :
  Forall well_dated items ->
  15000 <= clock w tick ->
  exists shown,
    outcome (run w tick (normalizeEvents items)) = Returned shown
    /\ filter is_progress_update shown
       = filter (fun p => is_progress_update p
                          && passes (clock w tick) items p) items
    /\ (forall p, In p shown -> is_progress_update p = true ->
                  not_superseded items p
                  /\ clock w tick - millis p <= 15000)
    /\ (count_progress shown <= count_progress items)%nat
    /\ count_progress (runnerEvents shown) = 0%nat.
Proof.
  intros Hdated Hnow.
  exists (filter (keep (clock w tick) (latestNonProgress items)) items).
  split; [apply normalizeEvents_returns|]. split; [|split; [|split]].
  - rewrite filter_filter_and. apply filter_ext_in. intros p Hin.
    destruct (is_progress_update p) eqn:Hp; [|reflexivity]. simpl.
    destruct (passes (clock w tick) items p) eqn:Hpass.
    + apply (keep_progress_iff _ items p Hdated Hnow Hin Hp).
      apply passes_spec. exact Hpass.
    + destruct (keep (clock w tick) (latestNonProgress items) p) eqn:Hkeep;
        [|reflexivity].
      apply (keep_progress_iff _ items p Hdated Hnow Hin Hp) in Hkeep.
      apply passes_spec in Hkeep. congruence.
  - intros p Hin Hp. apply filter_In in Hin. destruct Hin as [Hin Hkeep].
    apply (keep_progress_iff _ items p Hdated Hnow Hin Hp). exact Hkeep.
  - apply count_progress_filter.
  - apply runnerEvents_no_progress.
Qed.

Lemma normalizeEvents_progress_shown_witness :
  exists shown,
    outcome (run (offline_at 1700000001000) 0
                 (normalizeEvents two_progress_updates))
    = Returned shown
    /\ filter is_progress_update shown
       = filter (fun p => is_progress_update p
                          && passes 1700000001000 two_progress_updates p)
                two_progress_updates
    /\ (forall p, In p shown -> is_progress_update p = true ->
                  not_superseded two_progress_updates p
                  /\ 1700000001000 - millis p <= 15000)
    /\ (count_progress shown <= count_progress two_progress_updates)%nat
    /\ count_progress (runnerEvents shown) = 0%nat.
Proof.
  apply (normalizeEvents_progress_shown (offline_at 1700000001000) 0
           two_progress_updates).
  - repeat constructor; eexists; reflexivity.
  - simpl. lia.
Defined.

(** Outside the hypotheses of the two theorems the test against
    [latestNonProgress] is switched off: when no event that is not a
    progress update is dated after the epoch, and when one of them has an
    invalid date. *)
Example latestNonProgress_zero_is_falsy :
  outcome (run (offline_at 10000) 0
             (normalizeEvents
                [mkEvent "1" "message" "A" None None (ValidDate (-1));
                 progress_at "p" (-5)]))
  = Returned [mkEvent "1" "message" "A" None None (ValidDate (-1));
              progress_at "p" (-5)].
Proof. reflexivity. Qed.

Example latestNonProgress_NaN_is_falsy :
  outcome (run (offline_at 1700000001000) 0
             (normalizeEvents
                [progress_at "p" 1700000000000;
                 mkEvent "1" "message" "A" None None InvalidDate;
                 mkEvent "2" "message" "A" None None
                         (ValidDate 1700000000900)]))
  = Returned [progress_at "p" 1700000000000;
              mkEvent "1" "message" "A" None None InvalidDate;
              mkEvent "2" "message" "A" None None (ValidDate 1700000000900)].
Proof. reflexivity. Qed.

(** C7: the worked example.  For the events [tool_call] (id 1, agent A),
    [progress_update] (dated 0), [tool_output] (id 1, agent A, result
    "ok"), evaluated at 0.1 s, where one of the two tool events is newer
    than the progress update: the staleness filter drops the progress
    update, and the pipeline (staleness filter, type filter, grouping)
    displays the single group of the tool call and its output. *)
Theorem example_grouped_display (w : World) (tick : nat) (t_call t_out : Z) :
  clock w tick = 100 ->
  0 < Z.max t_call t_out ->
  outcome (run w tick (normalizeEvents (example_events t_call t_out)))
  = Returned [example_tool_call t_call; example_tool_output t_out]
  /\ outcome (run w tick (pipeline (example_events t_call t_out)))
     = Returned [[example_tool_call t_call; example_tool_output t_out]].
Proof.
  intros Hclock Hnewer.
  assert (Hshown :
    filter (keep (clock w tick)
                 (latestNonProgress (example_events t_call t_out)))
           (example_events t_call t_out)
    = [example_tool_call t_call; example_tool_output t_out]).
  { unfold example_events, latestNonProgress. simpl.
    unfold keep. simpl. unfold JS.gt. simpl.
    destruct (Z.eqb_spec (Z.max (Z.max 0 t_call) t_out) 0); [lia|].
    destruct (Z.ltb_spec 0 (Z.max (Z.max 0 t_call) t_out)); [|lia].
    reflexivity. }
  split.
  - rewrite normalizeEvents_returns, Hshown. reflexivity.
  - unfold pipeline, run. rewrite run_from_bind.
    fold (run w tick (normalizeEvents (example_events t_call t_out))).
    rewrite normalizeEvents_returns, Hshown. simpl.
    rewrite groupRunnerEvents_runs.
    rewrite !runs_cons. simpl. simp runs. reflexivity.
Qed.

Lemma example_grouped_display_witness :
  outcome (run (offline_at 100) 0 (normalizeEvents (example_events 0 50)))
  = Returned [example_tool_call 0; example_tool_output 50]
  /\ outcome (run (offline_at 100) 0 (pipeline (example_events 0 50)))
     = Returned [[example_tool_call 0; example_tool_output 50]].
Proof.
  apply (example_grouped_display (offline_at 100) 0 0 50).
  - reflexivity.
  - simpl. lia.
Defined.

(* ===================================================================== *)
(** * Snapshot reads                                                      *)
(* ===================================================================== *)

Section SnapshotReads.

Variable w : World.

(** A failed fetch makes either helper return [null], having issued
    its one request. *)
Lemma run_fetch_failed (r : Request) (tick : nat) (sent : list Request) :
  fetch_failed (server w r) = true ->
  run_from w tick sent (Fetch r json_or_null)
  = mkRun (Returned DNull) tick (sent ++ [r]).
Proof.
  intros H. simpl. destruct (server w r) as [|ok status body]; simpl in *.
  - reflexivity.
  - rewrite H. reflexivity.
Qed.

Lemma run_hydrate_failed (tick : nat) (s : HomeState) (id : string) :
  or_null (Some id) = Some id ->
  fetch_failed (server w (GetState id)) = true ->
  run w tick (hydrateState (Some id) s)
  = mkRun (Returned s) tick [GetState id].
Proof.
  intros Hid Hfail. unfold run, hydrateState. rewrite Hid.
  unfold fetchThreadState. rewrite run_from_bind.
  rewrite (run_fetch_failed _ _ _ Hfail). reflexivity.
Qed.

Lemma run_hydrate_unbound (tick : nat) (s : HomeState)
  (id : option string) :
  or_null id = None ->
  run w tick (hydrateState id s) = mkRun (Returned s) tick [].
Proof.
  intros Hid. unfold run, hydrateState. rewrite Hid. reflexivity.
Qed.

Lemma run_bootstrap_failed (tick : nat) (s : HomeState) :
  fetch_failed (server w GetBootstrap) = true ->
  run w tick (bootstrapEffect s) = mkRun (Returned s) tick [GetBootstrap].
Proof.
  intros Hfail. unfold run, bootstrapEffect, fetchBootstrapState.
  rewrite run_from_bind, (run_fetch_failed _ _ _ Hfail). reflexivity.
Qed.

(** A successful state read: the events of the snapshot replace the
    displayed ones, parsed and otherwise untouched. *)
Lemma run_hydrate_events (tick : nat) (s : HomeState) (id : string)
  (status : Z) (d : Snapshot.t) (evs : list WireEvent) :
  or_null (Some id) = Some id ->
  server w (GetState id) = Response true status (Some (DObject d)) ->
  Snapshot.events d = Some evs ->
  exists s',
    outcome (run w tick (hydrateState (Some id) s)) = Returned s'
    /\ Forall2 parsed_as evs (Home.events s').
Proof.
  intros Hid Hserver Hevs. unfold run, hydrateState. rewrite Hid.
  unfold fetchThreadState. simpl. rewrite Hserver. simpl. rewrite Hevs.
  rewrite run_from_bind, run_from_bind.
  destruct (run_from_parse_events w evs tick [GetState id])
    as (parsed & tick' & Hrun & Hparsed).
  rewrite Hrun. simpl.
  destruct (Snapshot.guardrails d) as [gs|]; simpl.
  - rewrite run_from_bind.
    destruct (run_from_parse_guardrails w gs tick' [GetState id])
      as (checks & tick'' & Hrun').
    rewrite Hrun'. simpl. eexists. split; [reflexivity | exact Hparsed].
  - eexists. split; [reflexivity | exact Hparsed].
Qed.

(** A successful bootstrap read: the events of the snapshot are parsed
    and then go through the staleness filter. *)
Lemma run_bootstrap_events (tick : nat) (s : HomeState)
  (status : Z) (b : Snapshot.t) (evs : list WireEvent) :
  server w GetBootstrap = Response true status (Some (DObject b)) ->
  Snapshot.events b = Some evs ->
  exists s' parsed tick',
    outcome (run w tick (bootstrapEffect s)) = Returned s'
    /\ Forall2 parsed_as evs parsed
    /\ outcome (run w tick' (normalizeEvents parsed))
       = Returned (Home.events s').
Proof.
  intros Hserver Hevs. unfold run at 1, bootstrapEffect.
  unfold fetchBootstrapState. simpl. rewrite Hserver. simpl. rewrite Hevs.
  rewrite run_from_bind, run_from_bind.
  destruct (run_from_parse_events w evs tick [GetBootstrap])
    as (parsed & tick' & Hrun & Hparsed).
  rewrite Hrun. simpl.
  destruct (run_from_normalizeEvents_ticks w parsed tick' [GetBootstrap])
    as (tick2 & Hnorm).
  rewrite run_from_bind, Hnorm. simpl.
  destruct (Snapshot.guardrails b) as [gs|]; simpl.
  - rewrite run_from_bind.
    destruct (run_from_parse_guardrails w gs tick2 [GetBootstrap])
      as (checks & tick3 & Hrun').
    rewrite Hrun'. simpl. eexists. exists parsed, tick'.
    split; [reflexivity|]. split; [exact Hparsed|].
    apply normalizeEvents_returns.
  - eexists. exists parsed, tick'.
    split; [reflexivity|]. split; [exact Hparsed|].
    apply normalizeEvents_returns.
Qed.

End SnapshotReads.

Lemma or_null_truthy (id : string) :
  JS.truthy_string id = true -> or_null (Some id) = Some id.
Proof.
  intros H. simpl. rewrite H. reflexivity.
Qed.

Lemma parsed_as_with_timestamp (e : WireEvent) (e' : AgentEvent) (d : Date) :
  parsed_as e e' -> timestamp e = Some d -> e' = with_timestamp e d.
Proof.
  intros [Hfields Hdate] Hd. specialize (Hdate d Hd).
  destruct e', e. unfold with_timestamp in *. simpl in *.
  injection Hfields as -> -> -> -> ->. subst. reflexivity.
Qed.

Lemma Forall2_parsed_In (evs : list WireEvent) (parsed : list AgentEvent) :
  Forall2 parsed_as evs parsed ->
  forall e d, In e evs -> timestamp e = Some d ->
              In (with_timestamp e d) parsed.
Proof.
  induction 1 as [|e0 e0' evs parsed H0 _ IH]; intros e d Hin Hd;
    [destruct Hin|].
  destruct Hin as [->|Hin].
  - left. apply parsed_as_with_timestamp; assumption.
  - right. apply IH; assumption.
Qed.

(** C9: a successful state read makes [hydrateState] display exactly the
    events of the snapshot, in the order delivered, with their timestamps
    parsed into dates and nothing filtered out: every delivered event is
    displayed, however old, progress updates included.  The staleness
    filter is applied on the bootstrap path only: the same snapshot read
    by the bootstrap effect is displayed as [normalizeEvents] returns
    it. *)
Theorem hydrateState_displays_snapshot (w : World) (tick : nat)
  (s : HomeState) (id : string) (status status' : Z) (d : Snapshot.t)
  (evs : list WireEvent) :
  JS.truthy_string id = true ->
  server w (GetState id) = Response true status (Some (DObject d)) ->
  server w GetBootstrap = Response true status' (Some (DObject d)) ->
  Snapshot.events d = Some evs ->
  (exists s',
      outcome (run w tick (hydrateState (Some id) s)) = Returned s'
      /\ Forall2 parsed_as evs (Home.events s')
      /\ (forall e date, In e evs -> timestamp e = Some date ->
                         In (with_timestamp e date) (Home.events s')))
  /\ (exists s' parsed tick',
         outcome (run w tick (bootstrapEffect s)) = Returned s'
         /\ Forall2 parsed_as evs parsed
         /\ outcome (run w tick' (normalizeEvents parsed))
            = Returned (Home.events s')).
Proof.
  intros Hid Hstate Hboot Hevs. apply or_null_truthy in Hid. split.
  - destruct (run_hydrate_events w tick s id status d evs Hid Hstate Hevs)
      as (s' & Hrun & Hparsed).
    exists s'. split; [exact Hrun|]. split; [exact Hparsed|].
    apply Forall2_parsed_In. exact Hparsed.
  - apply (run_bootstrap_events w tick s status' d evs Hboot Hevs).
Qed.

Lemma hydrateState_displays_snapshot_witness :
  (exists s',
      outcome (run stale_server 0 (hydrateState (Some "thr_1") initialState))
      = Returned s'
      /\ Forall2 parsed_as [stale_progress] (Home.events s')
      /\ (forall e date, In e [stale_progress] -> timestamp e = Some date ->
                         In (with_timestamp e date) (Home.events s')))
  /\ (exists s' parsed tick',
         outcome (run stale_server 0 (bootstrapEffect initialState))
         = Returned s'
         /\ Forall2 parsed_as [stale_progress] parsed
         /\ outcome (run stale_server tick' (normalizeEvents parsed))
            = Returned (Home.events s')).
Proof.
  apply (hydrateState_displays_snapshot stale_server 0 initialState "thr_1"
           200 200 stale_snapshot [stale_progress]); reflexivity.
Defined.

(** The same snapshot on the two paths: the state read displays the
    progress update of 1970, the bootstrap read drops it. *)
Example stale_progress_hydrated :
  outcome (run stale_server 0 (hydrateState (Some "thr_1") initialState))
  = Returned (Home.mk [] [with_timestamp stale_progress (ValidDate 0)]
                      "Triage Agent" [] [] None None).
Proof. reflexivity. Qed.

Example stale_progress_bootstrapped :
  outcome (run stale_server 0 (bootstrapEffect initialState))
  = Returned (Home.mk [] [] "Triage Agent" [] []
                      (Some "thr_1") (Some "thr_1")).
Proof. reflexivity. Qed.

(** C10: when the fetch of a snapshot read fails (the promise rejects or
    the status is not OK) the fetch helper returns [null] and its caller
    returns at once: the whole state of [Home] is what it was. *)
Theorem failed_fetch_leaves_state (w : World) (tick : nat) (s : HomeState)
  (r : Request) :
  fetch_failed (server w r) = true ->
  match r with
  | GetState id =>
      outcome (run w tick (fetchThreadState id)) = Returned DNull
      /\ outcome (run w tick (hydrateState (Some id) s)) = Returned s
  | GetBootstrap =>
      outcome (run w tick fetchBootstrapState) = Returned DNull
      /\ outcome (run w tick (bootstrapEffect s)) = Returned s
  end.
Proof.
  intros Hfail. destruct r as [id|].
  - split.
    + unfold run, fetchThreadState.
      rewrite (run_fetch_failed w _ _ _ Hfail). reflexivity.
    + destruct (or_null (Some id)) as [id'|] eqn:Hid.
      * assert (id' = id) as ->.
        { simpl in Hid. destruct (JS.truthy_string id); congruence. }
        rewrite (run_hydrate_failed w tick s id Hid Hfail). reflexivity.
      * rewrite (run_hydrate_unbound w tick s _ Hid). reflexivity.
  - split.
    + unfold run, fetchBootstrapState.
      rewrite (run_fetch_failed w _ _ _ Hfail). reflexivity.
    + rewrite (run_bootstrap_failed w tick s Hfail). reflexivity.
Qed.

Lemma failed_fetch_leaves_state_witness :
  outcome (run unknown_threads 0 (fetchThreadState "thr_gone"))
  = Returned DNull
  /\ outcome (run unknown_threads 0 (hydrateState (Some "thr_gone")
                                                  bound_state))
     = Returned bound_state.
Proof.
  apply (failed_fetch_leaves_state unknown_threads 0 bound_state
           (GetState "thr_gone")).
  reflexivity.
Defined.

(* ===================================================================== *)
(** * Notifications of the chat widget                                    *)
(* ===================================================================== *)

Section Notifications.

Lemma no_bootstrap_bind {A B : Type} (p : Prog A) (f : A -> Prog B) :
  no_bootstrap p -> (forall a, no_bootstrap (f a)) ->
  no_bootstrap (bind p f).
Proof.
  intros Hp Hf. induction Hp; simpl; auto; constructor; auto.
Qed.

Lemma no_bootstrap_mapM {A B : Type} (f : A -> Prog B) (l : list A) :
  (forall a, no_bootstrap (f a)) -> no_bootstrap (mapM f l).
Proof.
  intros Hf. induction l as [|a l IH]; simpl; [constructor|].
  apply no_bootstrap_bind; [apply Hf|]. intros b.
  apply no_bootstrap_bind; [exact IH|]. intros bs. constructor.
Qed.

Lemma no_bootstrap_parseEvent e : no_bootstrap (parseEvent e).
Proof.
  unfold parseEvent. destruct (timestamp e); repeat constructor.
Qed.

Lemma no_bootstrap_parseGuardrail g : no_bootstrap (parseGuardrail g).
Proof.
  unfold parseGuardrail. destruct (g_timestamp g); repeat constructor.
Qed.

Lemma no_bootstrap_hydrateState id s : no_bootstrap (hydrateState id s).
Proof.
  unfold hydrateState. destruct (or_null id) as [i|]; [|constructor].
  apply no_bootstrap_bind.
  - unfold fetchThreadState. constructor. intros x.
    unfold json_or_null. destruct x as [|ok status [data|]];
      try destruct (negb ok); constructor.
  - intros [| |d]; try constructor.
    apply no_bootstrap_bind.
    + destruct (Snapshot.events d); [|constructor].
      apply no_bootstrap_bind;
        [apply no_bootstrap_mapM, no_bootstrap_parseEvent|].
      intros; constructor.
    + intros s'. destruct (Snapshot.guardrails d); [|constructor].
      apply no_bootstrap_bind;
        [apply no_bootstrap_mapM, no_bootstrap_parseGuardrail|].
      intros; constructor.
Qed.

Lemma no_bootstrap_rerender before after :
  no_bootstrap (rerender before after).
Proof.
  unfold rerender, threadIdEffect.
  destruct (same_thread _ _); [constructor|].
  destruct (or_null _); [apply no_bootstrap_hydrateState | constructor].
Qed.

Lemma no_bootstrap_notify n s : no_bootstrap (notify (Home_props s) n s).
Proof.
  destruct n as [id| |effect]; simpl.
  - constructor.
  - apply no_bootstrap_hydrateState.
  - unfold onEffect. simpl.
    repeat (apply no_bootstrap_bind; [|intros ?]);
      repeat match goal with
             | |- context [if ?b then _ else _] => destruct b
             end; constructor.
Qed.

Lemma no_bootstrap_steps ns : forall s, no_bootstrap (steps ns s).
Proof.
  induction ns as [|n ns IH]; intros s; simpl; [constructor|].
  apply no_bootstrap_bind; [|exact IH].
  unfold step. apply no_bootstrap_bind;
    [apply no_bootstrap_notify | intros; apply no_bootstrap_rerender].
Qed.

Lemma run_from_no_bootstrap {A : Type} (w : World) (p : Prog A) :
  no_bootstrap p ->
  forall tick sent,
    ~ In GetBootstrap sent ->
    ~ In GetBootstrap (requests (run_from w tick sent p)).
Proof.
  induction 1 as [a| |id k _ IH|k _ IH]; intros tick sent Hsent; simpl;
    auto.
  apply IH. rewrite in_app_iff. simpl.
  intros [H|[H|[]]]; [auto | discriminate].
Qed.

Lemma same_thread_refl t : same_thread t t = true.
Proof.
  destruct t; simpl; [apply String.eqb_refl | reflexivity].
Qed.


End Notifications.

(** C5, as stated, fails: a client bound to a thread that the server does
    not know gets [null] from [fetchThreadState]; [hydrateState] then
    returns having issued the state read only, no bootstrap read, and the
    client keeps its thread binding. *)
Lemma hydrate_not_found_counterexample :
  outcome (run unknown_threads 0 (fetchThreadState "thr_gone"))
  = Returned DNull
  /\ run unknown_threads 0 (hydrateState (Some "thr_gone") bound_state)
     = mkRun (Returned bound_state) 0 [GetState "thr_gone"]
  /\ ~ In GetBootstrap
         (requests (run unknown_threads 0
                        (hydrateState (Some "thr_gone") bound_state))).
Proof.
  split; [reflexivity|]. split; [reflexivity|].
  simpl. intros [H|[]]. discriminate.
Qed.

(** C5 (amended): when the state read of a thread id fails (not found, or
    any other failure), [fetchThreadState] returns [null] and
    [hydrateState] returns having issued that one request: no bootstrap
    read follows and the state of the client, its thread binding
    included, is unchanged.  No notification of the chat widget makes
    [Home] read the bootstrap snapshot: that read is made by the mount
    effect only. *)
Theorem hydrateState_not_found (w : World) (tick : nat) (s : HomeState)
  (id : string) :
  JS.truthy_string id = true ->
  fetch_failed (server w (GetState id)) = true ->
  outcome (run w tick (fetchThreadState id)) = Returned DNull
  /\ run w tick (hydrateState (Some id) s)
     = mkRun (Returned s) tick [GetState id]
  /\ (forall ns tick' s',
         ~ In GetBootstrap (requests (run w tick' (steps ns s')))).
Proof.
  intros Hid Hfail. apply or_null_truthy in Hid. split; [|split].
  - unfold run, fetchThreadState.
    rewrite (run_fetch_failed w _ _ _ Hfail). reflexivity.
  - apply run_hydrate_failed; assumption.
  - intros ns tick' s'. unfold run.
    apply run_from_no_bootstrap; [apply no_bootstrap_steps | intros []].
Qed.

Lemma hydrateState_not_found_witness :
  outcome (run unknown_threads 0 (fetchThreadState "thr_gone"))
  = Returned DNull
  /\ run unknown_threads 0 (hydrateState (Some "thr_gone") bound_state)
     = mkRun (Returned bound_state) 0 [GetState "thr_gone"]
  /\ (forall ns tick' s',
         ~ In GetBootstrap
              (requests (run unknown_threads tick' (steps ns s')))).
Proof.
  apply (hydrateState_not_found unknown_threads 0 bound_state "thr_gone");
    reflexivity.
Defined.





(* ===================================================================== *)
(** * Tool invocations of the engine                                      *)
(* ===================================================================== *)

Module EngineProperties.
Import Engine.

Lemma settled_app (k : nat) (l es : list Event) :
  settled k l -> Forall (other k) es -> settled k (l ++ es).
Proof.
  intros (l1 & c & l2 & o & l3 & -> & Hc & Hck & Ho & Hok & Ha & Hp & Hn)
         Hes.
  exists l1, c, l2, o, (l3 ++ es). repeat split; auto.
  - rewrite <- !app_assoc. simpl. rewrite <- !app_assoc. reflexivity.
  - rewrite !Forall_app in *. tauto.
Qed.

Lemma open_call_app (k : nat) (a : string) (l es : list Event) :
  open_call k a l ->
  Forall (fun e => type e = progress_update) es ->
  Forall (other k) es ->
  open_call k a (l ++ es).
Proof.
  intros (l1 & c & l2 & -> & Hc & Hck & Ha & Hp & Hn) Hes Hother.
  exists l1, c, (l2 ++ es). repeat split; auto.
  - rewrite <- app_assoc. reflexivity.
  - apply Forall_app. split; assumption.
  - rewrite !Forall_app in *. tauto.
Qed.

(** An open invocation is settled by its [tool_output] event. *)
Lemma open_call_close (k : nat) (a : string) (l rest : list Event)
  (o : Event) :
  open_call k a l ->
  type o = tool_output -> invocation o = Some k -> agent o = a ->
  Forall (other k) rest ->
  settled k (l ++ o :: rest).
Proof.
  intros (l1 & c & l2 & -> & Hc & Hck & Ha & Hp & Hn) Ho Hok Hoa Hrest.
  exists l1, c, l2, o, rest. repeat split; auto.
  - rewrite <- app_assoc. reflexivity.
  - congruence.
  - rewrite !Forall_app in *. tauto.
Qed.

Lemma quiet_other (k : nat) (es : list Event) :
  Forall quiet es -> Forall (other k) es.
Proof.
  intros H. eapply Forall_impl; [|exact H].
  intros e [He _]. unfold other. congruence.
Qed.

Lemma consistent_new a : consistent (new_thread a).
Proof.
  unfold consistent. simpl. split; [constructor|]. split; [constructor|].
  intros k H. discriminate H.
Qed.

(** No executor is running when the turn lock is free. *)
Lemma consistent_idle (th : Thread) :
  consistent th -> turn_lock th = false -> pending th = None.
Proof.
  intros (_ & _ & H3) Hl. destruct (pending th) as [k|]; [|reflexivity].
  destruct (H3 k eq_refl) as [Hlock _]. congruence.
Qed.

(** While no executor is running, appending events that belong to no
    invocation and are not tool events keeps a thread consistent. *)
Lemma consistent_quiet (th th' : Thread) (es : list Event) :
  consistent th ->
  pending th = None -> pending th' = None ->
  invocations th' = invocations th ->
  log th' = log th ++ es ->
  Forall quiet es ->
  consistent th'.
Proof.
  intros (H1 & H2 & H3) Hp Hp' Hinv Hlog Hes. unfold consistent.
  rewrite Hlog, Hinv, Hp'. split; [|split].
  - apply Forall_app. split.
    + eapply Forall_impl; [|exact H1]. intros e He k Hk.
      destruct (He k Hk) as [Hlt [[_ Hs]|[Heq _]]]; [|congruence].
      split; [exact Hlt|]. left. split; [discriminate|].
      apply settled_app; [exact Hs | apply quiet_other; exact Hes].
    + eapply Forall_impl; [|exact Hes]. intros e [He _] k Hk. congruence.
  - apply Forall_app. split; [exact H2|].
    eapply Forall_impl; [|exact Hes]. intros e (_ & Hc & Ho) [H|H];
      contradiction.
  - intros k Hk. discriminate Hk.
Qed.

Lemma consistent_set_lock (b : bool) (th : Thread) :
  consistent th -> pending th = None -> consistent (set_lock b th).
Proof.
  intros Hth Hp.
  apply (consistent_quiet th _ []); auto.
  simpl. rewrite app_nil_r. reflexivity.
Qed.

(** Progress signalled while the executor runs leaves the invocation
    open. *)
Lemma consistent_progress (th : Thread) (k : nat) :
  consistent th -> pending th = Some k ->
  consistent (append [progress_event (current_agent th)] th).
Proof.
  intros (H1 & H2 & H3) Hp. unfold consistent. simpl.
  assert (Hq : forall k', Forall (other k')
                            [progress_event (current_agent th)]).
  { intros k'. repeat constructor. unfold other. simpl. discriminate. }
  assert (Hpr : Forall (fun e => type e = progress_update)
                       [progress_event (current_agent th)])
    by (repeat constructor).
  split; [|split].
  - apply Forall_app. split.
    + eapply Forall_impl; [|exact H1]. intros e He k' Hk'.
      destruct (He k' Hk') as [Hlt [[Hne Hs]|[Heq Ho]]];
        (split; [exact Hlt|]).
      * left. split; [exact Hne | apply settled_app; auto].
      * right. split; [exact Heq | apply open_call_app; auto].
    + apply Forall_cons; [|apply Forall_nil].
      intros k' Hk'. discriminate Hk'.
  - apply Forall_app. split; [exact H2|].
    apply Forall_cons; [|apply Forall_nil].
    intros [H|H]; discriminate H.
  - intros k' Hk'. destruct (H3 k' Hk') as (Hl & Hlt & Ho).
    split; [exact Hl|]. split; [exact Hlt|].
    apply open_call_app; auto.
Qed.

(** Closing the invocation whose executor runs settles it. *)
Lemma consistent_close (th : Thread) (k : nat) (m : Metadata)
  (rest : list Event) (goes_on : bool) :
  consistent th -> pending th = Some k -> Forall quiet rest ->
  consistent (close_invocation k m rest goes_on th).
Proof.
  intros (H1 & H2 & H3) Hp Hrest.
  destruct (H3 k Hp) as (Hlock & Hlt & Hopen).
  unfold consistent. simpl.
  set (o := tool_output_event (current_agent th) m k).
  assert (Hsettled : settled k (log th ++ o :: rest)).
  { apply (open_call_close k (current_agent th)); auto.
    apply quiet_other. exact Hrest. }
  split; [|split].
  - apply Forall_app. split.
    + eapply Forall_impl; [|exact H1]. intros e He k' Hk'.
      destruct (He k' Hk') as [Hlt' [[Hne Hs]|[Heq _]]];
        (split; [exact Hlt'|]); left; (split; [discriminate|]).
      * apply settled_app; [exact Hs|].
        apply Forall_cons; [|apply quiet_other; exact Hrest].
        unfold other. simpl. congruence.
      * rewrite Hp in Heq. injection Heq as <-. exact Hsettled.
    + apply Forall_cons.
      * intros k' Hk'. simpl in Hk'. injection Hk' as <-.
        split; [exact Hlt|]. left. split; [discriminate | exact Hsettled].
      * eapply Forall_impl; [|exact Hrest]. intros e [He _] k' Hk'.
        congruence.
  - apply Forall_app. split; [exact H2|]. apply Forall_cons.
    + intros _. simpl. discriminate.
    + eapply Forall_impl; [|exact Hrest]. intros e (_ & Hc & Ho) [H|H];
        contradiction.
  - intros k' Hk'. discriminate Hk'.
Qed.

(** Opening an invocation appends its [tool_call]: the invocation is
    open, and the past ones stay settled. *)
Lemma consistent_open (th : Thread) (tool args : string) :
  consistent th -> pending th = None -> turn_lock th = true ->
  consistent (open_invocation tool args th).
Proof.
  intros (H1 & H2 & H3) Hp Hlock. unfold consistent. simpl.
  set (k := invocations th).
  set (c := tool_call_event (current_agent th) tool args k).
  assert (Hold : Forall (other k) (log th)).
  { eapply Forall_impl; [|exact H1]. intros e He Hek.
    destruct (He k Hek) as [Hlt _]. unfold k in Hlt. lia. }
  assert (Hopen : open_call k (current_agent th) (log th ++ [c])).
  { exists (log th), c, []. repeat split; auto.
    rewrite app_nil_r. exact Hold. }
  split; [|split].
  - apply Forall_app. split.
    + eapply Forall_impl; [|exact H1]. intros e He k' Hk'.
      destruct (He k' Hk') as [Hlt [[_ Hs]|[Heq _]]]; [|congruence].
      fold k in Hlt. split; [lia|]. left. split.
      * intros H. injection H as H. lia.
      * apply settled_app; [exact Hs|].
        apply Forall_cons; [|apply Forall_nil].
        unfold other. simpl. intros H. injection H as H. lia.
    + apply Forall_cons; [|apply Forall_nil].
      intros k' Hk'. simpl in Hk'.
      injection Hk' as <-. split; [lia|]. right. split; auto.
  - apply Forall_app. split; [exact H2|].
    apply Forall_cons; [|apply Forall_nil].
    intros _. simpl. discriminate.
  - intros k' Hk'. injection Hk' as <-.
    split; [exact Hlock|]. split; [lia | exact Hopen].
Qed.

Ltac quiet_events :=
  repeat (apply Forall_cons;
          [unfold quiet; simpl; split; [reflexivity | split; discriminate]|]);
  apply Forall_nil.

Ltac quiet_step :=
  match goal with
  | Hth : consistent ?th, Hp : pending ?th = None |- _ =>
      eapply (consistent_quiet th);
      [exact Hth | exact Hp
      | unfold append, set_lock; simpl; (reflexivity || exact Hp)
      | reflexivity
      | unfold append, set_lock; simpl; reflexivity | ]
  end.

Lemma consistent_step (directory : list Agent) (i : Input) (th : Thread) :
  consistent th -> consistent (step directory i th).
Proof.
  intros Hth. unfold step. destruct (turn_lock th) eqn:Hlock; simpl.
  - destruct (pending th) as [k|] eqn:Hp.
    + destruct i; try exact Hth.
      * apply consistent_close; auto.
      * apply (consistent_progress th k); auto.
      * apply consistent_close; auto.
      * apply consistent_close; auto.
        quiet_events.
    + destruct i; try exact Hth.
      * destruct (allowed directory (current_agent th) target);
          [|exact Hth].
        quiet_step; quiet_events.
      * apply consistent_open; auto.
      * quiet_step; destruct pass; quiet_events.
      * quiet_step; quiet_events.
      * quiet_step; quiet_events.
      * quiet_step; quiet_events.
      * apply consistent_set_lock; auto.
      * apply consistent_set_lock; auto.
      * quiet_step; quiet_events.
  - destruct i; try exact Hth.
    apply consistent_set_lock; [exact Hth|].
    apply consistent_idle; assumption.
Qed.

Lemma consistent_run (directory : list Agent) (inputs : list Input) :
  forall th, consistent th -> consistent (run directory inputs th).
Proof.
  unfold run. induction inputs as [|i inputs IH]; intros th Hth; simpl;
    [exact Hth|].
  apply IH, consistent_step. exact Hth.
Qed.

(** A stop leaves the thread idle, whatever it was doing. *)
Lemma stop_idle (directory : list Agent) (th : Thread) :
  consistent th ->
  turn_lock (step directory Stop th) = false
  /\ pending (step directory Stop th) = None.
Proof.
  intros Hth. unfold step. destruct (turn_lock th) eqn:Hlock; simpl.
  - destruct (pending th) as [k|] eqn:Hp; simpl; auto.
  - split; [exact Hlock | apply consistent_idle; assumption].
Qed.

Lemma run_app (directory : list Agent) (l1 l2 : list Input) (th : Thread) :
  run directory (l1 ++ l2) th = run directory l2 (run directory l1 th).
Proof. unfold run. apply fold_left_app. Qed.

Lemma append_nil (th : Thread) : append [] th = th.
Proof. destruct th. unfold append. simpl. rewrite app_nil_r. reflexivity. Qed.

Lemma append_append (es es' : list Event) (th : Thread) :
  append es' (append es th) = append (es ++ es') th.
Proof. unfold append. simpl. rewrite app_assoc. reflexivity. Qed.

Lemma run_progress (directory : list Agent) (k n : nat) :
  forall th,
    turn_lock th = true -> pending th = Some k ->
    run directory (repeat Progress n) th
    = append (repeat (progress_event (current_agent th)) n) th.
Proof.
  induction n as [|n IH]; intros th Hlock Hp; simpl.
  - symmetry. apply append_nil.
  - unfold run in *. simpl. unfold step at 2. rewrite Hlock, Hp. simpl.
    rewrite IH by assumption. simpl. apply append_append.
Qed.

(** One tool invocation from an idle thread: the inbound message takes
    the lock and the tool call appends its [tool_call] event. *)
Lemma run_open (directory : list Agent) (text tool args : string)
  (th : Thread) :
  turn_lock th = false -> pending th = None ->
  run directory [Inbound text; CallTool tool args] th
  = open_invocation tool args (set_lock true th).
Proof.
  intros Hlock Hp. unfold run. simpl. unfold step at 2. rewrite Hlock.
  simpl. unfold step. simpl. rewrite Hp. reflexivity.
Qed.

Lemma step_ending (directory : list Agent) (k : nat) (e : Ending)
  (th : Thread) :
  turn_lock th = true -> pending th = Some k ->
  step directory (ending_input e) th
  = close_invocation k (ending_metadata e) (ending_rest (current_agent th) e)
      match e with
      | Ends _ => true
      | _ => false
      end th.
Proof.
  intros Hlock Hp. unfold step. rewrite Hlock, Hp.
  destruct e; reflexivity.
Qed.

(** C8: in every state that the engine of a thread reaches, every tool
    event of the log belongs to an invocation that is settled (its
    [tool_call] is followed, after progress signals only, by its one
    [tool_output] by the same agent) or to the invocation whose executor
    is running, during a turn; when no turn is executing, no executor is
    running and every tool event is settled: no [tool_call] is left
    without its output.  And after any history, a tool invocation
    appends its [tool_call] event before the executor ends, and, however
    it ends (the executor completes, fails or times out, the client stops
    the turn, an internal fault occurs), exactly one [tool_output] event
    follows, with the result or an error payload. *)
Theorem tool_calls_paired (directory : list Agent) (default_agent : string)
  (history : list Input) (text tool args : string) (waiting : nat)
  (ending : Ending) :
  let th := run directory history (new_thread default_agent) in
  let idle := step directory Stop th in
  let a := current_agent idle in
  let k := invocations idle in
  let opened := run directory [Inbound text; CallTool tool args] idle in
  let closed := run directory
                    ([Inbound text; CallTool tool args]
                     ++ repeat Progress waiting ++ [ending_input ending])
                    idle in
  Forall (fun e =>
            type e = tool_call \/ type e = tool_output ->
            exists j, invocation e = Some j
                      /\ (settled j (log th)
                          \/ (turn_lock th = true /\ pending th = Some j
                              /\ open_call j (current_agent th) (log th))))
         (log th)
  /\ (turn_lock th = true
      \/ (pending th = None
          /\ Forall (fun e =>
                       type e = tool_call \/ type e = tool_output ->
                       exists j, invocation e = Some j
                                 /\ settled j (log th))
                    (log th)))
  /\ (log opened = log idle ++ [tool_call_event a tool args k]
      /\ pending opened = Some k /\ turn_lock opened = true)
  /\ (log closed
      = log idle ++ [tool_call_event a tool args k]
        ++ repeat (progress_event a) waiting
        ++ tool_output_event a (ending_metadata ending) k
           :: ending_rest a ending
      /\ pending closed = None
      /\ settled k (log closed)
      /\ turn_lock closed = match ending with
                            | Ends _ => true
                            | _ => false
                            end).
Proof.
  intros th idle a k opened closed.
  assert (Hth : consistent th)
    by (apply consistent_run, consistent_new).
  assert (Hidle : consistent idle) by (apply consistent_step; exact Hth).
  destruct (stop_idle directory th Hth) as [Hlock Hp].
  fold idle in Hlock, Hp.
  assert (Hpaired :
    Forall (fun e =>
              type e = tool_call \/ type e = tool_output ->
              exists j, invocation e = Some j
                        /\ (settled j (log th)
                            \/ (turn_lock th = true /\ pending th = Some j
                                /\ open_call j (current_agent th) (log th))))
           (log th)).
  { destruct Hth as (H1 & H2 & H3).
    apply Forall_forall. intros e He Htool.
    rewrite Forall_forall in H1, H2.
    destruct (invocation e) as [j|] eqn:Hj;
      [|exfalso; apply (H2 e He Htool); exact Hj].
    exists j. split; [reflexivity|].
    destruct (H1 e He j Hj) as [_ [[_ Hs]|[Heq Ho]]]; [left; exact Hs|].
    right. destruct (H3 j Heq) as [Hl _]. auto. }
  split; [exact Hpaired|]. split; [|split].
  - destruct (turn_lock th) eqn:Hl; [left; reflexivity|]. right.
    split; [apply consistent_idle; assumption|].
    eapply Forall_impl; [|exact Hpaired].
    intros e He Htool. destruct (He Htool) as (j & Hj & [Hs|[Hc _]]);
      [eauto | discriminate Hc].
  - unfold opened. rewrite (run_open directory text tool args idle Hlock Hp).
    simpl. auto.
  - unfold closed. rewrite !run_app.
    rewrite (run_open directory text tool args idle Hlock Hp).
    rewrite (run_progress directory k waiting) by reflexivity.
    unfold run. simpl fold_left.
    rewrite (step_ending directory k ending) by reflexivity.
    simpl. rewrite <- !app_assoc. simpl.
    split; [reflexivity|]. split; [reflexivity|]. split; [|reflexivity].
    exists (log idle), (tool_call_event a tool args k),
      (repeat (progress_event a) waiting),
      (tool_output_event a (ending_metadata ending) k),
      (ending_rest a ending).
    repeat split.
    + apply Forall_forall. intros e He. apply repeat_spec in He. subst e.
      reflexivity.
    + destruct Hidle as (H1 & _ & _).
      apply Forall_app. split.
      * eapply Forall_impl; [|exact H1]. intros e He Hek.
        destruct (He k Hek) as [Hlt _]. unfold k in Hlt. lia.
      * apply Forall_app. split.
        -- apply Forall_forall. intros e He. apply repeat_spec in He.
           subst e. unfold other. simpl. discriminate.
        -- destruct ending; repeat constructor; unfold other; simpl;
             discriminate.
Qed.

End EngineProperties.

(* ===================================================================== *)
(** * More on the staleness filter                                        *)
(* ===================================================================== *)

Lemma filter_subseq {A : Type} (f : A -> bool) (l : list A) :
  subseq (filter f l) l.
Proof.
  induction l as [|x l IH]; simpl; [constructor|].
  destruct (f x); constructor; exact IH.
Qed.

(** A filter that only keeps what an earlier filter keeps does not see
    the earlier one. *)
Lemma filter_after_filter {A : Type} (f g : A -> bool) (l : list A) :
  (forall x, In x l -> g x = true -> f x = true) ->
  filter g (filter f l) = filter g l.
Proof.
  induction l as [|x l IH]; intros H; simpl; [reflexivity|].
  assert (IH' : filter g (filter f l) = filter g l)
    by (apply IH; intros y Hy; apply H; right; exact Hy).
  destruct (f x) eqn:Hf; simpl.
  - rewrite IH'. reflexivity.
  - destruct (g x) eqn:Hg; [|exact IH'].
    rewrite (H x (or_introl eq_refl) Hg) in Hf. discriminate.
Qed.

Lemma keep_other now latest e :
  not_progress_update e = true -> keep now latest e = true.
Proof.
  intros H. unfold keep. rewrite H. reflexivity.
Qed.

Lemma keep_invalid_date now latest e :
  invalid_date e = true -> keep now latest e = true.
Proof.
  unfold invalid_date, keep. intros H.
  destruct (not_progress_update e); [reflexivity|].
  destruct (getTime (timestamp e)); [discriminate|].
  simpl. rewrite andb_false_r. destruct latest; reflexivity.
Qed.

(** What the filter keeps at some reading of the clock it keeps at every
    earlier reading. *)
Lemma keep_earlier now1 now2 latest e :
  now1 <= now2 -> keep now2 latest e = true -> keep now1 latest e = true.
Proof.
  intros Hle. unfold keep.
  destruct (not_progress_update e); [reflexivity|].
  destruct (JS.truthy latest && JS.lt (getTime (timestamp e)) latest);
    [discriminate|].
  destruct (getTime (timestamp e)) as [t|]; simpl; [|reflexivity].
  unfold JS.gt. simpl.
  destruct (Z.ltb_spec 15000 (now2 - t)); [discriminate|].
  destruct (Z.ltb_spec 15000 (now1 - t)); [lia | reflexivity].
Qed.

Lemma latestNonProgress_filter_keep now latest items :
  latestNonProgress (filter (keep now latest) items)
  = latestNonProgress items.
Proof.
  unfold latestNonProgress. f_equal.
  apply filter_after_filter. intros e _. apply keep_other.
Qed.

(** X1: whatever the dates and the clock, the staleness filter returns
    its input with some progress updates removed: the order is kept, and
    the events that are not progress updates are all there, each as often
    as in the input. *)
Theorem normalizeEvents_keeps_other_events (w : World) (tick : nat)
  (items : list AgentEvent) :
  exists shown,
    outcome (run w tick (normalizeEvents items)) = Returned shown
    /\ subseq shown items
    /\ filter not_progress_update shown = filter not_progress_update items.
Proof.
  eexists. split; [apply normalizeEvents_returns|]. split.
  - apply filter_subseq.
  - apply filter_after_filter. intros e _. apply keep_other.
Qed.

(** X2: a progress update whose timestamp is an invalid date is never
    dropped, however old the other events and whatever the clock: both
    comparisons of the filter are false on [NaN]. *)
Theorem normalizeEvents_keeps_invalid_dates (w : World) (tick : nat)
  (items : list AgentEvent) :
  exists shown,
    outcome (run w tick (normalizeEvents items)) = Returned shown
    /\ filter invalid_date shown = filter invalid_date items.
Proof.
  eexists. split; [apply normalizeEvents_returns|].
  apply filter_after_filter. intros e _. apply keep_invalid_date.
Qed.

(** X3: filtering again later changes nothing that filtering once at the
    later time would not do: the filter run at a reading of the clock on
    the output of the filter run at an earlier reading returns what it
    returns on the original events.  In particular the filter is
    idempotent at a given reading. *)
Theorem normalizeEvents_again_later (w1 w2 : World) (tick1 tick2 : nat)
  (items : list AgentEvent) :
  clock w1 tick1 <= clock w2 tick2 ->
  exists shown1 shown2,
    outcome (run w1 tick1 (normalizeEvents items)) = Returned shown1
    /\ outcome (run w2 tick2 (normalizeEvents shown1)) = Returned shown2
    /\ outcome (run w2 tick2 (normalizeEvents items)) = Returned shown2.
Proof.
  intros Hle. eexists. eexists.
  split; [apply normalizeEvents_returns|].
  split; [apply normalizeEvents_returns|].
  rewrite normalizeEvents_returns. f_equal.
  rewrite latestNonProgress_filter_keep. symmetry.
  apply filter_after_filter. intros e _. apply keep_earlier. exact Hle.
Qed.

Lemma normalizeEvents_again_later_witness :
  exists shown1 shown2,
    outcome (run (offline_at 1700000000100) 0
                 (normalizeEvents two_progress_updates)) = Returned shown1
    /\ outcome (run (offline_at 1700000020000) 0 (normalizeEvents shown1))
       = Returned shown2
    /\ outcome (run (offline_at 1700000020000) 0
                    (normalizeEvents two_progress_updates))
       = Returned shown2.
Proof.
  apply (normalizeEvents_again_later (offline_at 1700000000100)
           (offline_at 1700000020000) 0 0 two_progress_updates).
  simpl. lia.
Defined.

(** X4: for well-dated events, when every progress update is older than
    15 s, or older than an event that is not a progress update and is
    dated after the epoch, the filter returns exactly the events that are
    not progress updates. *)
Theorem normalizeEvents_drops_all_progress (w : World) (tick : nat)
  (items : list AgentEvent) :
  Forall well_dated items ->
  (forall p, In p items -> is_progress_update p = true ->
             15000 < clock w tick - millis p
             \/ exists e, In e items /\ not_progress_update e = true
                          /\ 0 < millis e /\ millis p < millis e) ->
  outcome (run w tick (normalizeEvents items))
  = Returned (filter not_progress_update items).
Proof.
  intros Hdated Hstale. rewrite normalizeEvents_returns. f_equal.
  apply filter_ext_in. intros p Hin.
  destruct (is_progress_update p) eqn:Hp.
  - rewrite not_progress_update_negb, Hp. simpl.
    destruct (keep (clock w tick) (latestNonProgress items) p) eqn:Hkeep;
      [|reflexivity].
    exfalso. rewrite (latestNonProgress_well_dated items Hdated) in Hkeep.
    assert (Hwd : well_dated p)
      by (rewrite Forall_forall in Hdated; apply Hdated; exact Hin).
    apply (keep_progress _ _ p Hwd Hp) in Hkeep.
    destruct Hkeep as [Hlatest Hage].
    destruct (Hstale p Hin Hp) as [Hold|(e & He & Hnp & Hpos & Hnewer)];
      [lia|].
    assert (Hup : millis e
                  <= max_millis (filter not_progress_update items) 0)
      by (apply max_millis_upper, filter_In; tauto).
    lia.
  - rewrite keep_not_progress by exact Hp.
    rewrite not_progress_update_negb, Hp. reflexivity.
Qed.

Lemma normalizeEvents_drops_all_progress_witness :
  outcome (run (offline_at 1700000000100) 0
               (normalizeEvents
                  (example_events 1700000000000 1700000000050)))
  = Returned (filter not_progress_update
                     (example_events 1700000000000 1700000000050)).
Proof.
  apply (normalizeEvents_drops_all_progress (offline_at 1700000000100) 0
           (example_events 1700000000000 1700000000050)).
  - repeat constructor; eexists; reflexivity.
  - intros p Hin Hp. left.
    destruct Hin as [<-|[<-|[<-|[]]]]; try discriminate Hp.
    simpl. lia.
Defined.

(** X5: the staleness filter never changes what the runner output shows:
    the type filter of [AgentPanel] removes every progress update anyway,
    so the pipeline returns the groups of the unfiltered events, whatever
    the dates and the clock. *)
Theorem pipeline_ignores_staleness (w : World) (tick : nat)
  (items : list AgentEvent) :
  outcome (run w tick (pipeline items))
  = Returned (groupRunnerEvents (runnerEvents items)).
Proof.
  unfold pipeline, run. rewrite run_from_bind.
  fold (run w tick (normalizeEvents items)).
  rewrite normalizeEvents_returns. simpl. f_equal. f_equal.
  unfold runnerEvents. apply filter_after_filter.
  intros e _ He. apply keep_other. unfold not_progress_update.
  apply andb_true_iff in He. tauto.
Qed.

(* ===================================================================== *)
(** * More on the cards of the runner output                              *)
(* ===================================================================== *)

Lemma continues_agent c o : continues c o = true -> agent o = agent c.
Proof.
  unfold continues. intros H. apply andb_true_iff in H.
  apply String.eqb_eq. tauto.
Qed.

Lemma continues_not_tool_call c o :
  continues c o = true -> is_tool_call o = false.
Proof.
  unfold continues, is_tool_call. intros H. apply andb_true_iff in H.
  destruct H as [H _]. apply String.eqb_eq in H. rewrite H. reflexivity.
Qed.

(** X6: no card of the runner output is empty, and every event of a card
    is by the agent that the header of the card names (the agent of its
    first event): the fallback name "Agent" is never shown. *)
Theorem card_header_names_every_event (events : list AgentEvent) :
  Forall (fun g => g <> [] /\ Forall (fun e => agent e = agentName g) g)
         (groupRunnerEvents events).
Proof.
  rewrite groupRunnerEvents_runs.
  eapply Forall_impl; [|apply runs_groups].
  intros g [(c & outs & -> & _ & Houts)|(e & -> & _)].
  - split; [discriminate|]. simpl. constructor; [reflexivity|].
    eapply Forall_impl; [|exact Houts].
    intros o Ho. apply continues_agent. exact Ho.
  - split; [discriminate|]. repeat constructor.
Qed.

Lemma filter_outputs_of c rest :
  filter is_tool_call rest = filter is_tool_call (after_outputs c rest).
Proof.
  induction rest as [|o rest IH]; simpl; [reflexivity|].
  destruct (continues c o) eqn:Ho; [|reflexivity].
  rewrite (continues_not_tool_call c o Ho). exact IH.
Qed.

Lemma runs_heads events :
  filter is_tool_call (heads (runs events)) = filter is_tool_call events.
Proof.
  funelim (runs events); simp runs; simpl; [reflexivity| |].
  - match goal with
    | E : is_tool_call _ = true, IH : filter _ (heads _) = _ |- _ =>
        rewrite E, IH
    end.
    f_equal. symmetry. apply filter_outputs_of.
  - match goal with
    | E : is_tool_call _ = false, IH : filter _ (heads _) = _ |- _ =>
        rewrite E, IH
    end.
    reflexivity.
Qed.

Lemma heads_length (groups : list (list AgentEvent)) :
  Forall (fun g => tool_run g \/ single g) groups ->
  List.length (heads groups) = List.length groups
  /\ (List.length groups <= List.length (List.concat groups))%nat.
Proof.
  unfold heads. induction 1 as [|g gs Hg _ [IH1 IH2]]; [split; reflexivity|].
  destruct Hg as [(c & outs & -> & _)|(e & -> & _)]; simpl in *;
    rewrite ?length_app, IH1; split; try reflexivity; lia.
Qed.

(** X7: tool calls are never merged: every tool call is the first event
    of a card of its own, in the order of the events, so the runner output
    has at least as many cards as there are tool calls and at most as many
    as there are events. *)
Theorem tool_calls_head_cards (events : list AgentEvent) :
  filter is_tool_call (heads (groupRunnerEvents events))
  = filter is_tool_call events
  /\ (List.length (filter is_tool_call events)
      <= List.length (groupRunnerEvents events)
      <= List.length events)%nat.
Proof.
  rewrite groupRunnerEvents_runs. split; [apply runs_heads|].
  destruct (heads_length (runs events) (runs_groups events))
    as [Hheads Hconcat].
  rewrite runs_concat in Hconcat. split; [|exact Hconcat].
  rewrite <- runs_heads, <- Hheads. apply filter_length_le.
Qed.

Lemma runs_no_tool_call events :
  forallb (fun e => negb (is_tool_call e)) events = true ->
  runs events = map (fun e => [e]) events.
Proof.
  induction events as [|e events IH]; intros H; [simp runs; reflexivity|].
  simpl in H. apply andb_true_iff in H. destruct H as [He H].
  rewrite runs_cons. apply negb_true_iff in He. rewrite He, IH by exact H.
  reflexivity.
Qed.

(** X8: without a tool call nothing is grouped: every event is a card of
    its own, also tool outputs of one agent that follow one another. *)
Theorem groupRunnerEvents_without_tool_call (events : list AgentEvent) :
  forallb (fun e => negb (is_tool_call e)) events = true ->
  groupRunnerEvents events = map (fun e => [e]) events.
Proof.
  intros H. rewrite groupRunnerEvents_runs. apply runs_no_tool_call.
  exact H.
Qed.

Lemma groupRunnerEvents_without_tool_call_witness :
  groupRunnerEvents [example_tool_output 1; example_tool_output 2]
  = map (fun e => [e]) [example_tool_output 1; example_tool_output 2].
Proof.
  apply (groupRunnerEvents_without_tool_call
           [example_tool_output 1; example_tool_output 2]).
  reflexivity.
Defined.

Lemma outputs_of_snoc c rest e :
  (after_outputs c rest = []
   /\ ((continues c e = true
        /\ outputs_of c (rest ++ [e]) = rest ++ [e]
        /\ after_outputs c (rest ++ [e]) = [])
       \/ (continues c e = false
           /\ outputs_of c (rest ++ [e]) = rest
           /\ after_outputs c (rest ++ [e]) = [e])))
  \/ (after_outputs c rest <> []
      /\ outputs_of c (rest ++ [e]) = outputs_of c rest
      /\ after_outputs c (rest ++ [e]) = after_outputs c rest ++ [e]).
Proof.
  induction rest as [|o rest IH]; simpl.
  - left. split; [reflexivity|].
    destruct (continues c e); [left | right]; repeat split; reflexivity.
  - destruct (continues c o) eqn:Ho.
    + destruct IH as [[Hnil [(He & H1 & H2)|(He & H1 & H2)]]|(Hne & H1 & H2)].
      * left. split; [exact Hnil|]. left. rewrite H1, H2. auto.
      * left. split; [exact Hnil|]. right. rewrite H1, H2. auto.
      * right. rewrite H1, H2. auto.
    + right. repeat split; try reflexivity. discriminate.
Qed.

Lemma runs_single e : runs [e] = [[e]].
Proof.
  rewrite runs_cons. simp runs. destruct (is_tool_call e); reflexivity.
Qed.

Lemma runs_snoc events :
  forall e,
    runs (events ++ [e]) = runs events ++ [[e]]
    \/ exists gs g c,
         runs events = gs ++ [g]
         /\ hd_error g = Some c /\ is_tool_call c = true
         /\ continues c e = true
         /\ runs (events ++ [e]) = gs ++ [g ++ [e]].
Proof.
  funelim (runs events); intros new.
  - left. simpl. rewrite runs_single. simp runs. reflexivity.
  - simpl. rewrite !runs_cons.
    match goal with E : is_tool_call _ = true |- _ => rewrite E end.
    destruct (outputs_of_snoc current rest new)
      as [[Hnil [(He & H1 & H2)|(He & H1 & H2)]]|(Hne & H1 & H2)];
      rewrite H1, H2.
    + right. exists [], (current :: rest), current.
      rewrite Hnil. simp runs.
      pose proof (outputs_of_split current rest) as Hsplit.
      rewrite Hnil, app_nil_r in Hsplit. rewrite Hsplit. auto.
    + left. rewrite Hnil, runs_single. simp runs.
      pose proof (outputs_of_split current rest) as Hsplit.
      rewrite Hnil, app_nil_r in Hsplit. rewrite Hsplit. reflexivity.
    + match goal with
      | IH : forall _, runs (_ ++ [_]) = _ \/ _ |- _ =>
          destruct (IH new)
            as [IH'|(gs & g & c & Hruns & Hc & Htc & Hce & IH')]
      end.
      * left. rewrite IH'. reflexivity.
      * right.
        exists ((current :: outputs_of current rest) :: gs), g, c.
        rewrite Hruns, IH'. auto.
  - simpl. rewrite !runs_cons.
    match goal with E : is_tool_call _ = false |- _ => rewrite E end.
    match goal with
    | IH : forall _, runs (_ ++ [_]) = _ \/ _ |- _ =>
        destruct (IH new)
          as [IH'|(gs & g & c & Hruns & Hc & Htc & Hce & IH')]
    end.
    + left. rewrite IH'. reflexivity.
    + right. exists ([current] :: gs), g, c. rewrite Hruns, IH'. auto.
Qed.

(** X9: a new event never regroups the cards that are there: when an
    event arrives at the end of the log, either it becomes a new last
    card, or it joins the last card, which then is a tool call of the
    agent of the event followed by tool outputs only; the cards before
    the last one are unchanged. *)
Theorem groupRunnerEvents_new_event (events : list AgentEvent)
  (e : AgentEvent) :
  groupRunnerEvents (events ++ [e]) = groupRunnerEvents events ++ [[e]]
  \/ exists gs g c,
       groupRunnerEvents events = gs ++ [g]
       /\ hd_error g = Some c /\ is_tool_call c = true
       /\ continues c e = true
       /\ groupRunnerEvents (events ++ [e]) = gs ++ [g ++ [e]].
Proof.
  rewrite !groupRunnerEvents_runs. apply runs_snoc.
Qed.

Lemma append_dash_free_inj (a b s t : string) :
  dash_free a = true -> dash_free b = true ->
  (s = EmptyString \/ exists s', s = String "-" s') ->
  (t = EmptyString \/ exists t', t = String "-" t') ->
  String.append a s = String.append b t -> a = b.
Proof.
  revert b. induction a as [|c a IH]; intros [|d b] Ha Hb Hs Ht H;
    simpl in *.
  - reflexivity.
  - exfalso. apply andb_true_iff in Hb. destruct Hb as [Hd _].
    destruct Hs as [->|[s' ->]]; [discriminate|].
    injection H as <- _. discriminate.
  - exfalso. apply andb_true_iff in Ha. destruct Ha as [Hc _].
    destruct Ht as [->|[t' ->]]; [discriminate|].
    injection H as -> _. discriminate.
  - apply andb_true_iff in Ha. apply andb_true_iff in Hb.
    injection H as -> H. f_equal. apply (IH b); tauto.
Qed.

Lemma append_same_length_inj (a b s t : string) :
  String.length a = String.length b ->
  String.append a s = String.append b t -> a = b.
Proof.
  revert b. induction a as [|c a IH]; intros [|d b] Hlen H; simpl in *;
    try discriminate.
  - reflexivity.
  - injection H as -> H. injection Hlen as Hlen. f_equal.
    apply (IH b); assumption.
Qed.

Lemma append_empty_r (s : string) : String.append s EmptyString = s.
Proof.
  induction s as [|c s IH]; simpl; [reflexivity | rewrite IH; reflexivity].
Qed.

(** The key of a group starts with the id of its first event, followed
    by nothing or by a dash. *)
Lemma key_first_id (e : AgentEvent) (rest : list AgentEvent) :
  exists t,
    key (e :: rest) = String.append (id e) t
    /\ (t = EmptyString \/ exists t', t = String "-" t').
Proof.
  unfold key. simpl. destruct (map id rest) as [|x xs].
  - exists EmptyString. rewrite append_empty_r. auto.
  - eexists. split; [reflexivity|]. right. simpl. eauto.
Qed.

Lemma NoDup_app_disjoint {A : Type} (l l' : list A) (a : A) :
  NoDup (l ++ l') -> In a l -> In a l' -> False.
Proof.
  induction l as [|x l IH]; simpl; intros Hnd Hl Hl'; [exact Hl|].
  inversion Hnd as [|? ? Hx Hnd']; subst.
  destruct Hl as [->|Hl].
  - apply Hx. apply in_or_app. right. exact Hl'.
  - apply IH; assumption.
Qed.

Lemma NoDup_first_ids (groups : list (list AgentEvent)) :
  Forall (fun g => g <> []) groups ->
  NoDup (map id (List.concat groups)) ->
  NoDup (map first_id groups).
Proof.
  induction 1 as [|g gs Hg Hgs IH]; intros Hnd; simpl; [constructor|].
  simpl in Hnd. rewrite map_app in Hnd.
  constructor.
  - intros Hin. apply in_map_iff in Hin.
    destruct Hin as (g' & Heq & Hg').
    rewrite Forall_forall in Hgs. specialize (Hgs g' Hg').
    destruct g as [|e r]; [congruence|].
    destruct g' as [|e' r']; [congruence|]. simpl in Heq.
    apply (NoDup_app_disjoint _ _ (id e) Hnd).
    + left. reflexivity.
    + rewrite <- Heq. apply in_map. apply in_concat.
      exists (e' :: r'). split; [exact Hg' | left; reflexivity].
  - apply IH. apply NoDup_app_remove_l in Hnd. exact Hnd.
Qed.

Lemma NoDup_map_coarser {A B C : Type} (f : A -> B) (g : A -> C)
  (l : list A) :
  (forall x y, In x l -> In y l -> g x = g y -> f x = f y) ->
  NoDup (map f l) -> NoDup (map g l).
Proof.
  induction l as [|x l IH]; intros H Hnd; simpl; [constructor|].
  inversion Hnd as [|? ? Hx Hnd']; subst. constructor.
  - intros Hin. apply in_map_iff in Hin. destruct Hin as (y & Heq & Hy).
    apply Hx. rewrite <- (H y x); [apply in_map; exact Hy| | |exact Heq];
      simpl; auto.
  - apply IH; [|exact Hnd'].
    intros a b Ha Hb. apply H; right; assumption.
Qed.

(** X10: the React keys of the cards are distinct when the ids of the
    events are distinct and either contain no dash or all have the same
    length (as hexadecimal ids and UUIDs do). *)
Theorem card_keys_distinct (events : list AgentEvent) :
  NoDup (map id events) ->
  (forallb (fun e => dash_free (id e)) events = true
   \/ exists n, Forall (fun e => String.length (id e) = n) events) ->
  NoDup (map key (groupRunnerEvents events)).
Proof.
  intros Hnd Hids. rewrite groupRunnerEvents_runs.
  pose proof (runs_groups events) as Hgroups.
  pose proof (runs_concat events) as Hconcat.
  assert (Hne : Forall (fun g => g <> []) (runs events)).
  { eapply Forall_impl; [|exact Hgroups].
    intros g [(c & outs & -> & _)|(e & -> & _)]; discriminate. }
  apply (NoDup_map_coarser first_id key).
  - intros g g' Hg Hg' Hkey.
    rewrite Forall_forall in Hne.
    pose proof (Hne g Hg) as Hgne. pose proof (Hne g' Hg') as Hgne'.
    destruct g as [|e r]; [congruence|].
    destruct g' as [|e' r']; [congruence|]. simpl.
    assert (He : In e events).
    { rewrite <- Hconcat. apply in_concat. exists (e :: r).
      split; [exact Hg | left; reflexivity]. }
    assert (He' : In e' events).
    { rewrite <- Hconcat. apply in_concat. exists (e' :: r').
      split; [exact Hg' | left; reflexivity]. }
    destruct (key_first_id e r) as (t & Ht & Htail).
    destruct (key_first_id e' r') as (t' & Ht' & Htail').
    rewrite Ht, Ht' in Hkey.
    destruct Hids as [Hdash|[n Hlen]].
    + rewrite forallb_forall in Hdash.
      apply (append_dash_free_inj _ _ t t'); auto.
    + rewrite Forall_forall in Hlen.
      apply (append_same_length_inj _ _ t t'); [|exact Hkey].
      rewrite (Hlen e He), (Hlen e' He'). reflexivity.
  - apply NoDup_first_ids; [exact Hne|]. rewrite Hconcat. exact Hnd.
Qed.

Lemma card_keys_distinct_witness :
  NoDup (map key (groupRunnerEvents
                    [mkEvent "a1" "tool_call" "A" None None (ValidDate 0);
                     mkEvent "a2" "tool_output" "A" None None (ValidDate 1);
                     mkEvent "a3" "handoff" "A" None None (ValidDate 2)])).
Proof.
  apply (card_keys_distinct
           [mkEvent "a1" "tool_call" "A" None None (ValidDate 0);
            mkEvent "a2" "tool_output" "A" None None (ValidDate 1);
            mkEvent "a3" "handoff" "A" None None (ValidDate 2)]).
  - simpl. repeat constructor; simpl; intuition discriminate.
  - left. reflexivity.
Defined.

(** Without the condition on the ids two cards can have the same key:
    the card of the events "a" and "b" and the card of the event "a-b". *)
Example card_keys_collide :
  map key (groupRunnerEvents
             [mkEvent "a" "tool_call" "A" None None (ValidDate 0);
              mkEvent "b" "tool_output" "A" None None (ValidDate 1);
              mkEvent "a-b" "handoff" "A" None None (ValidDate 2)])
  = ["a-b"; "a-b"].
Proof. reflexivity. Qed.

(* ===================================================================== *)
(** * The seat map of the agent panel                                     *)
(* ===================================================================== *)

Lemma prefix_spec (sub s : string) :
  String.prefix sub s = true <-> exists post, s = String.append sub post.
Proof.
  revert s. induction sub as [|c sub IH]; intros s; simpl.
  - split; [intros _; exists s; reflexivity|].
    intros _. destruct s; reflexivity.
  - destruct s as [|d s];
      [split; [discriminate | intros [post H]; discriminate]|].
    simpl. destruct (Ascii.ascii_dec c d) as [->|Hneq].
    + split.
      * intros H. apply IH in H. destruct H as [post ->].
        exists post. reflexivity.
      * intros [post H]. injection H as H. apply IH. exists post. exact H.
    + split; [discriminate|]. intros [post H]. congruence.
Qed.

Lemma includes_nil (sub : string) :
  includes EmptyString sub = String.prefix sub EmptyString.
Proof.
  destruct sub; reflexivity.
Qed.

Lemma includes_cons (c : Ascii.ascii) (s sub : string) :
  includes (String c s) sub
  = String.prefix sub (String c s) || includes s sub.
Proof.
  change (includes (String c s) sub)
    with (if String.prefix sub (String c s) then true else includes s sub).
  destruct (String.prefix sub (String c s)); reflexivity.
Qed.

(** [includes] is containment of a substring. *)
Lemma includes_spec (s sub : string) :
  includes s sub = true
  <-> exists pre post, s = String.append pre (String.append sub post).
Proof.
  induction s as [|c s IH].
  - rewrite includes_nil, prefix_spec. split.
    + intros [post H]. exists EmptyString, post. exact H.
    + intros ([|d pre] & post & H); [|discriminate].
      exists post. exact H.
  - rewrite includes_cons, orb_true_iff, prefix_spec, IH. split.
    + intros [[post H]|(pre & post & ->)].
      * exists EmptyString, post. exact H.
      * exists (String c pre), post. reflexivity.
    + intros ([|d pre] & post & H).
      * left. exists post. exact H.
      * right. simpl in H. injection H as _ H. eauto.
Qed.




(* ===================================================================== *)
(** * More on the snapshot reads of Home                                  *)
(* ===================================================================== *)

Lemma run_from_mapM_parseEvent (w : World) (evs : list WireEvent) :
  forall tick sent,
    run_from w tick sent (mapM parseEvent evs)
    = mkRun (Returned (fst (parsed_events w tick evs)))
            (snd (parsed_events w tick evs)) sent.
Proof.
  induction evs as [|e evs IH]; intros tick sent; simpl; [reflexivity|].
  unfold parseEvent at 1. destruct (timestamp e) as [d|]; simpl;
    rewrite run_from_bind, IH; reflexivity.
Qed.

Lemma run_from_mapM_parseGuardrail (w : World) (gs : list WireGuardrail) :
  forall tick sent,
    run_from w tick sent (mapM parseGuardrail gs)
    = mkRun (Returned (fst (parsed_guardrails w tick gs)))
            (snd (parsed_guardrails w tick gs)) sent.
Proof.
  induction gs as [|g gs IH]; intros tick sent; simpl; [reflexivity|].
  unfold parseGuardrail at 1. destruct (g_timestamp g) as [d|]; simpl;
    rewrite run_from_bind, IH; reflexivity.
Qed.

(** The run of [hydrateState] in closed form. *)
Lemma run_from_hydrateState (w : World) (tick : nat) (sent : list Request)
  (id : option string) (s : HomeState) :
  run_from w tick sent (hydrateState id s)
  = match or_null id with
    | None => mkRun (Returned s) tick sent
    | Some i =>
        match server w (GetState i) with
        | Response true _ (Some (DObject d)) =>
            mkRun (Returned (fst (hydrated w tick d s)))
                  (snd (hydrated w tick d s)) (sent ++ [GetState i])
        | Response true _ None => mkRun Rejected tick (sent ++ [GetState i])
        | _ => mkRun (Returned s) tick (sent ++ [GetState i])
        end
    end.
Proof.
  unfold hydrateState. destruct (or_null id) as [i|]; [|reflexivity].
  unfold fetchThreadState. simpl.
  destruct (server w (GetState i)) as [|[|] status [[| |d]|]]; simpl;
    try reflexivity.
  unfold hydrated.
  rewrite run_from_bind.
  destruct (Snapshot.events d) as [evs|]; simpl.
  - rewrite run_from_bind, run_from_mapM_parseEvent. simpl.
    destruct (Snapshot.guardrails d) as [gs|]; simpl; [|reflexivity].
    rewrite run_from_bind, run_from_mapM_parseGuardrail. reflexivity.
  - destruct (Snapshot.guardrails d) as [gs|]; simpl; [|reflexivity].
    rewrite run_from_bind, run_from_mapM_parseGuardrail. reflexivity.
Qed.

(** The run of the bootstrap effect in closed form. *)
Lemma run_from_bootstrapEffect (w : World) (tick : nat)
  (sent : list Request) (s : HomeState) :
  run_from w tick sent (bootstrapEffect s)
  = match server w GetBootstrap with
    | Response true _ (Some (DObject b)) =>
        mkRun (Returned (fst (bootstrapped w tick b s)))
              (snd (bootstrapped w tick b s)) (sent ++ [GetBootstrap])
    | Response true _ None => mkRun Rejected tick (sent ++ [GetBootstrap])
    | _ => mkRun (Returned s) tick (sent ++ [GetBootstrap])
    end.
Proof.
  unfold bootstrapEffect, fetchBootstrapState. simpl.
  destruct (server w GetBootstrap) as [|[|] status [[| |b]|]]; simpl;
    try reflexivity.
  unfold bootstrapped.
  rewrite run_from_bind.
  destruct (Snapshot.events b) as [evs|]; simpl.
  - rewrite run_from_bind, run_from_mapM_parseEvent. simpl.
    rewrite run_from_bind, run_from_normalizeEvents.
    destruct (fst (parsed_events w tick evs)) as [|e parsed] eqn:Hparsed;
      simpl.
    + destruct (Snapshot.guardrails b) as [gs|]; simpl; [|reflexivity].
      rewrite run_from_bind, run_from_mapM_parseGuardrail. reflexivity.
    + destruct (Snapshot.guardrails b) as [gs|]; simpl; [|reflexivity].
      rewrite run_from_bind, run_from_mapM_parseGuardrail. reflexivity.
  - destruct (Snapshot.guardrails b) as [gs|]; simpl; [|reflexivity].
    rewrite run_from_bind, run_from_mapM_parseGuardrail. reflexivity.
Qed.

Lemma hydrated_thread (w : World) (tick : nat) (d : Snapshot.t)
  (s : HomeState) :
  Home.threadId (fst (hydrated w tick d s)) = Home.threadId s
  /\ Home.initialThreadId (fst (hydrated w tick d s))
     = Home.initialThreadId s.
Proof.
  unfold hydrated.
  destruct (Snapshot.agents d), (Snapshot.events d), (Snapshot.guardrails d);
    split; reflexivity.
Qed.

(** X12: for an ASCII thread id, [hydrateState] issues the state read of
    its thread id and no other request (none at all without an id), and,
    however the read ends, it never changes the thread binding of the
    client: [threadId] and [initialThreadId] are what they were. *)
Theorem hydrateState_keeps_thread (w : World) (tick : nat)
  (id : option string) (s : HomeState) :
  ascii_id id = true ->
  requests (run w tick (hydrateState id s))
  = match or_null id with
    | Some i => [GetState i]
    | None => []
    end
  /\ match outcome (run w tick (hydrateState id s)) with
     | Returned s' =>
         Home.threadId s' = Home.threadId s
         /\ Home.initialThreadId s' = Home.initialThreadId s
     | Rejected => True
     end.
Proof.
  intros _.
  unfold run. rewrite run_from_hydrateState.
  destruct (or_null id) as [i|]; [|split; [reflexivity | split; reflexivity]].
  destruct (server w (GetState i)) as [|[|] status [[| |d]|]]; simpl;
    split; try reflexivity; try (split; reflexivity); try exact I.
  apply hydrated_thread.
Qed.

Lemma hydrateState_keeps_thread_witness :
  ascii_id (Some "thr_1") = true
  /\ requests (run bootstrap_then_state 0
                   (hydrateState (Some "thr_1") initialState))
     = [GetState "thr_1"].
Proof.
  split; [reflexivity|].
  apply (hydrateState_keeps_thread bootstrap_then_state 0 (Some "thr_1")
           initialState).
  reflexivity.
Defined.

(** X13: the [catch] block of the fetch helpers does not cover the body:
    when the response is OK and its body is not JSON, the promise of the
    helper is rejected, and so is that of [hydrateState] (for a thread id
    that is ASCII and not empty) and that of the bootstrap effect, after
    their one request. *)
Theorem unparseable_body_rejects (w : World) (tick : nat) (id : string)
  (s : HomeState) :
  JS.truthy_string id = true ->
  is_ascii id = true ->
  ((exists status, server w (GetState id) = Response true status None) ->
   run w tick (fetchThreadState id) = mkRun Rejected tick [GetState id]
   /\ run w tick (hydrateState (Some id) s)
      = mkRun Rejected tick [GetState id])
  /\ ((exists status, server w GetBootstrap = Response true status None) ->
      run w tick fetchBootstrapState = mkRun Rejected tick [GetBootstrap]
      /\ run w tick (bootstrapEffect s)
         = mkRun Rejected tick [GetBootstrap]).
Proof.
  intros Hid _. apply or_null_truthy in Hid.
  split; intros [status Hserver].
  - split.
    + unfold run, fetchThreadState. simpl. rewrite Hserver. reflexivity.
    + unfold run. rewrite run_from_hydrateState, Hid, Hserver. reflexivity.
  - split.
    + unfold run, fetchBootstrapState. simpl. rewrite Hserver. reflexivity.
    + unfold run. rewrite run_from_bootstrapEffect, Hserver. reflexivity.
Qed.

Lemma unparseable_body_rejects_witness :
  JS.truthy_string "thr_1" = true
  /\ is_ascii "thr_1" = true
  /\ outcome (run (not_json_at 1700000000000) 0
                  (hydrateState (Some "thr_1") initialState)) = Rejected
  /\ outcome (run (not_json_at 1700000000000) 0
                  (bootstrapEffect initialState)) = Rejected.
Proof.
  destruct (unparseable_body_rejects (not_json_at 1700000000000) 0 "thr_1"
              initialState eq_refl eq_refl) as [Hstate Hbootstrap].
  destruct (Hstate (ex_intro _ 200 eq_refl)) as [_ Hhydrate].
  destruct (Hbootstrap (ex_intro _ 200 eq_refl)) as [_ Heffect].
  split; [reflexivity|]. split; [reflexivity|].
  rewrite Hhydrate, Heffect. split; reflexivity.
Defined.

(** X14: a state snapshot overwrites [currentAgent] and [context] even
    when it lacks them (with the empty string and the empty object),
    whereas [agents], [events] and [guardrails] are replaced only when
    the snapshot holds an array for them and are kept otherwise. *)
Theorem hydrateState_overwrites (w : World) (tick : nat) (s : HomeState)
  (id : string) (status : Z) (d : Snapshot.t) :
  JS.truthy_string id = true ->
  server w (GetState id) = Response true status (Some (DObject d)) ->
  exists s',
    outcome (run w tick (hydrateState (Some id) s)) = Returned s'
    /\ Home.currentAgent s' = or_empty (Snapshot.current_agent d)
    /\ Home.context s' = match Snapshot.context d with
                         | Some c => c
                         | None => []
                         end
    /\ Home.agents s' = match Snapshot.agents d with
                        | Some a => a
                        | None => Home.agents s
                        end
    /\ Home.events s' = match Snapshot.events d with
                        | Some evs => fst (parsed_events w tick evs)
                        | None => Home.events s
                        end
    /\ match Snapshot.guardrails d with
       | Some gs => exists tick',
                      Home.guardrails s' = fst (parsed_guardrails w tick' gs)
       | None => Home.guardrails s' = Home.guardrails s
       end.
Proof.
  intros Hid Hserver. apply or_null_truthy in Hid.
  unfold run. rewrite run_from_hydrateState, Hid, Hserver. simpl.
  eexists. split; [reflexivity|]. unfold hydrated.
  destruct (Snapshot.agents d), (Snapshot.events d),
    (Snapshot.guardrails d); simpl; repeat split; eauto.
Qed.

Lemma hydrateState_overwrites_witness :
  exists s',
    outcome (run stale_server 0 (hydrateState (Some "thr_1") bound_state))
    = Returned s'
    /\ Home.currentAgent s' = or_empty (Snapshot.current_agent stale_snapshot)
    /\ Home.context s' = match Snapshot.context stale_snapshot with
                         | Some c => c
                         | None => []
                         end
    /\ Home.agents s' = match Snapshot.agents stale_snapshot with
                        | Some a => a
                        | None => Home.agents bound_state
                        end
    /\ Home.events s' = match Snapshot.events stale_snapshot with
                        | Some evs => fst (parsed_events stale_server 0 evs)
                        | None => Home.events bound_state
                        end
    /\ match Snapshot.guardrails stale_snapshot with
       | Some gs => exists tick',
                      Home.guardrails s'
                      = fst (parsed_guardrails stale_server tick' gs)
       | None => Home.guardrails s' = Home.guardrails bound_state
       end.
Proof.
  apply (hydrateState_overwrites stale_server 0 bound_state "thr_1" 200
           stale_snapshot); reflexivity.
Defined.

(** X15: a bootstrap snapshot binds the client to its thread: [threadId]
    and [initialThreadId] both become the thread id of the snapshot, or
    [null] when it has none; unlike a state snapshot, it leaves
    [currentAgent], [context] and [agents] as they were when it lacks
    them. *)
Theorem bootstrapEffect_binds_thread (w : World) (tick : nat)
  (s : HomeState) (status : Z) (b : Snapshot.t) :
  server w GetBootstrap = Response true status (Some (DObject b)) ->
  exists s',
    outcome (run w tick (bootstrapEffect s)) = Returned s'
    /\ Home.threadId s' = or_null (Snapshot.thread_id b)
    /\ Home.initialThreadId s' = or_null (Snapshot.thread_id b)
    /\ Home.currentAgent s' = match or_null (Snapshot.current_agent b) with
                              | Some a => a
                              | None => Home.currentAgent s
                              end
    /\ Home.context s' = match Snapshot.context b with
                         | Some c => c
                         | None => Home.context s
                         end
    /\ Home.agents s' = match Snapshot.agents b with
                        | Some a => a
                        | None => Home.agents s
                        end.
Proof.
  intros Hserver.
  unfold run. rewrite run_from_bootstrapEffect, Hserver. simpl.
  eexists. split; [reflexivity|]. unfold bootstrapped.
  destruct (or_null (Snapshot.current_agent b)), (Snapshot.agents b),
    (Snapshot.context b), (Snapshot.events b), (Snapshot.guardrails b);
    simpl; repeat split; reflexivity.
Qed.

Lemma bootstrapEffect_binds_thread_witness :
  exists s',
    outcome (run unknown_threads 0 (bootstrapEffect bound_state))
    = Returned s'
    /\ Home.threadId s' = or_null (Snapshot.thread_id fresh_snapshot)
    /\ Home.initialThreadId s' = or_null (Snapshot.thread_id fresh_snapshot)
    /\ Home.currentAgent s'
       = match or_null (Snapshot.current_agent fresh_snapshot) with
         | Some a => a
         | None => Home.currentAgent bound_state
         end
    /\ Home.context s' = match Snapshot.context fresh_snapshot with
                         | Some c => c
                         | None => Home.context bound_state
                         end
    /\ Home.agents s' = match Snapshot.agents fresh_snapshot with
                        | Some a => a
                        | None => Home.agents bound_state
                        end.
Proof.
  apply (bootstrapEffect_binds_thread unknown_threads 0 bound_state 200
           fresh_snapshot).
  reflexivity.
Defined.

(* ===================================================================== *)
(** * More on the effects and callbacks of Home                           *)
(* ===================================================================== *)

Lemma or_null_idem (x : option string) (i : string) :
  or_null x = Some i -> or_null (Some i) = Some i.
Proof.
  destruct x as [v|]; simpl; [|discriminate].
  destruct (JS.truthy_string v) eqn:Hv; [|discriminate].
  intros H. injection H as <-. rewrite Hv. reflexivity.
Qed.

Lemma bootstrapped_thread (w : World) (tick : nat) (b : Snapshot.t)
  (s : HomeState) :
  Home.threadId (fst (bootstrapped w tick b s))
  = or_null (Snapshot.thread_id b).
Proof.
  unfold bootstrapped.
  destruct (or_null (Snapshot.current_agent b)), (Snapshot.agents b),
    (Snapshot.context b), (Snapshot.events b), (Snapshot.guardrails b);
    reflexivity.
Qed.

Lemma hydrated_threadId (w : World) (tick : nat) (d : Snapshot.t)
  (s : HomeState) :
  Home.threadId (fst (hydrated w tick d s)) = Home.threadId s.
Proof. apply hydrated_thread. Qed.

Lemma requests_run_from_hydrateState (w : World) (tick : nat)
  (sent : list Request) (id : option string) (s : HomeState) :
  requests (run_from w tick sent (hydrateState id s))
  = sent ++ match or_null id with
            | Some i => [GetState i]
            | None => []
            end.
Proof.
  rewrite run_from_hydrateState.
  destruct (or_null id) as [i|]; [|simpl; rewrite app_nil_r; reflexivity].
  destruct (server w (GetState i)) as [|[|] status [[| |d]|]]; reflexivity.
Qed.

(** The thread binding after the bootstrap effect, on any answer of the
    server. *)
Definition bootstrap_thread (w : World) : option string :=
  match server w GetBootstrap with
  | Response true _ (Some (DObject b)) => or_null (Snapshot.thread_id b)
  | _ => None
  end.

Lemma mount_initialState :
  mount initialState
  = bind (bootstrapEffect initialState) (rerender initialState).
Proof. reflexivity. Qed.

(** X16: mounting [Home] reads the bootstrap snapshot and then, when that
    snapshot names a thread, the state of that thread: these are the only
    requests, in this order, whatever the server answers, as long as the
    thread id it gives is ASCII. *)
Theorem mount_requests (w : World) (tick : nat) :
  ascii_id (bootstrap_thread w) = true ->
  requests (run w tick (mount initialState))
  = GetBootstrap :: match bootstrap_thread w with
                    | Some i => [GetState i]
                    | None => []
                    end.
Proof.
  intros _.
  unfold run, bootstrap_thread.
  rewrite mount_initialState, run_from_bind, run_from_bootstrapEffect.
  destruct (server w GetBootstrap) as [|[|] status [[| |b]|]]; simpl;
    try reflexivity.
  unfold rerender. rewrite bootstrapped_thread. simpl.
  destruct (or_null (Snapshot.thread_id b)) as [i|] eqn:Hi; simpl;
    [|reflexivity].
  unfold threadIdEffect. rewrite bootstrapped_thread, Hi.
  rewrite (or_null_idem _ _ Hi).
  rewrite requests_run_from_hydrateState, (or_null_idem _ _ Hi).
  reflexivity.
Qed.

Lemma mount_requests_witness :
  ascii_id (bootstrap_thread bootstrap_then_state) = true
  /\ requests (run bootstrap_then_state 0 (mount initialState))
     = [GetBootstrap; GetState "thr_1"].
Proof.
  split; [reflexivity|].
  apply (mount_requests bootstrap_then_state 0). reflexivity.
Defined.

(** X17: when the bootstrap snapshot names a thread and the state read of
    that thread succeeds, the events that [Home] displays once mounted
    are the events of the state snapshot, parsed and unfiltered: what the
    staleness filter did to the events of the bootstrap snapshot is
    overwritten. *)
Theorem mount_displays_state_snapshot (w : World) (tick : nat)
  (status status' : Z) (b d : Snapshot.t) (i : string)
  (evs : list WireEvent) :
  server w GetBootstrap = Response true status (Some (DObject b)) ->
  or_null (Snapshot.thread_id b) = Some i ->
  server w (GetState i) = Response true status' (Some (DObject d)) ->
  Snapshot.events d = Some evs ->
  exists s' tick',
    outcome (run w tick (mount initialState)) = Returned s'
    /\ Home.threadId s' = Some i
    /\ Home.events s' = fst (parsed_events w tick' evs).
Proof.
  intros Hboot Hi Hstate Hevs.
  unfold run.
  rewrite mount_initialState, run_from_bind, run_from_bootstrapEffect, Hboot.
  simpl.
  unfold rerender. rewrite bootstrapped_thread, Hi. simpl.
  unfold threadIdEffect. rewrite bootstrapped_thread, Hi.
  rewrite (or_null_idem _ _ Hi).
  rewrite run_from_hydrateState, (or_null_idem _ _ Hi), Hstate. simpl.
  eexists. eexists. split; [reflexivity|]. split.
  - rewrite hydrated_threadId, bootstrapped_thread. exact Hi.
  - unfold hydrated. rewrite Hevs.
    destruct (Snapshot.agents d), (Snapshot.guardrails d); reflexivity.
Qed.

Lemma mount_displays_state_snapshot_witness :
  exists s' tick',
    outcome (run bootstrap_then_state 0 (mount initialState)) = Returned s'
    /\ Home.threadId s' = Some "thr_1"
    /\ Home.events s'
       = fst (parsed_events bootstrap_then_state tick' [stale_progress]).
Proof.
  apply (mount_displays_state_snapshot bootstrap_then_state 0 200 200
           (Snapshot.mk (Some "thr_1") (Some "Triage Agent") (Some [])
                        (Some []) (Some []) (Some []))
           stale_snapshot "thr_1" [stale_progress]); reflexivity.
Defined.

(** X18: a notification of the chat widget makes [Home] issue at most one
    request, a state read: of the new thread id when the thread changes
    to another one that has an id, of the bound thread when a response
    ends, and none for an effect or for a thread change that changes
    nothing; for ASCII thread ids. *)
Theorem step_requests (w : World) (tick : nat) (n : Notification)
  (s : HomeState) :
  ascii_id (read_thread n s) = true ->
  requests (run w tick (step n s))
  = match n with
    | ThreadChange t =>
        if same_thread (Home.threadId s) t then []
        else match or_null t with
             | Some i => [GetState i]
             | None => []
             end
    | ResponseEnd =>
        match or_null (Home.threadId s) with
        | Some i => [GetState i]
        | None => []
        end
    | EffectFired _ => []
    end.
Proof.
  intros _.
  unfold run, step. destruct n as [t| |effect].
  - simpl. unfold rerender. simpl.
    destruct (same_thread (Home.threadId s) t); [reflexivity|].
    unfold threadIdEffect. simpl.
    destruct (or_null t) as [i|] eqn:Ht; [|reflexivity].
    rewrite requests_run_from_hydrateState, Ht. reflexivity.
  - simpl. unfold handleResponseEnd.
    rewrite run_from_bind, run_from_hydrateState.
    destruct (or_null (Home.threadId s)) as [i|].
    + destruct (server w (GetState i)) as [|[|] status [[| |d]|]];
        cbn [outcome ticks requests]; unfold rerender;
        rewrite ?hydrated_threadId, ?same_thread_refl;
        reflexivity.
    + cbn [outcome ticks requests]. unfold rerender.
      rewrite same_thread_refl. reflexivity.
  - simpl. unfold onEffect. simpl.
    destruct (String.eqb (Effect.name effect) "runner_state_update"),
      (String.eqb (Effect.name effect) "runner_event_delta"),
      (String.eqb (Effect.name effect) "runner_bind_thread"); simpl;
      unfold rerender; rewrite same_thread_refl; reflexivity.
Qed.

Lemma step_requests_witness :
  ascii_id (read_thread ResponseEnd knows_three) = true
  /\ requests (run (offline_at 1700000000000) 0
                   (step ResponseEnd knows_three))
     = [GetState "thr_1"].
Proof.
  split; [reflexivity|].
  apply (step_requests (offline_at 1700000000000) 0 ResponseEnd knows_three).
  reflexivity.
Defined.

(** X19: a thread change without a thread id (a new, empty chat) only
    clears [threadId]: no request is issued and the agents, events,
    guardrails and context of the previous thread stay displayed. *)
Theorem thread_change_without_id (w : World) (tick : nat)
  (t : option string) (s : HomeState) :
  or_null t = None ->
  run w tick (step (ThreadChange t) s)
  = mkRun (Returned (setThreadId t s)) tick [].
Proof.
  intros Ht. unfold run, step. simpl. unfold rerender. simpl.
  destruct (same_thread (Home.threadId s) t); [reflexivity|].
  unfold threadIdEffect. simpl. rewrite Ht. reflexivity.
Qed.

Lemma thread_change_without_id_witness :
  run unknown_threads 0 (step (ThreadChange None) bound_state)
  = mkRun (Returned (setThreadId None bound_state)) 0 [].
Proof.
  apply (thread_change_without_id unknown_threads 0 None bound_state).
  reflexivity.
Defined.

(** X20: [onEffect] takes only the name of an effect: whatever data the
    effect carries, the callbacks see none of it, and for the props that
    [Home] passes every effect leaves the state as it is and issues no
    request; in particular the effect [runner_bind_thread] never binds a
    thread. *)
Theorem effects_change_nothing (w : World) (tick : nat)
  (props : ChatKitPanelProps) (effect : Effect.t) (s : HomeState) :
  onEffect props effect s
  = onEffect props (Effect.mk (Effect.name effect) None) s
  /\ run w tick (step (EffectFired effect) s) = mkRun (Returned s) tick [].
Proof.
  split; [reflexivity|].
  unfold run, step. simpl. unfold onEffect. simpl.
  destruct (String.eqb (Effect.name effect) "runner_state_update"),
    (String.eqb (Effect.name effect) "runner_event_delta"),
    (String.eqb (Effect.name effect) "runner_bind_thread"); simpl;
    unfold rerender; rewrite same_thread_refl; reflexivity.
Qed.

(* ===================================================================== *)
(** * The labels of the event types                                       *)
(* ===================================================================== *)

Lemma replace_underscores_length (s : string) :
  String.length (replace_underscores s) = String.length s.
Proof.
  induction s as [|c s IH]; simpl; [reflexivity | rewrite IH; reflexivity].
Qed.

Lemma replace_underscores_clean (s : string) :
  no_underscore (replace_underscores s) = true.
Proof.
  induction s as [|c s IH]; simpl; [reflexivity|].
  rewrite IH. destruct (Ascii.eqb c "_") eqn:Hc; [reflexivity|].
  rewrite Hc. reflexivity.
Qed.

Lemma replace_underscores_idempotent (s : string) :
  replace_underscores (replace_underscores s) = replace_underscores s.
Proof.
  induction s as [|c s IH]; simpl; [reflexivity|].
  rewrite IH. destruct (Ascii.eqb c "_") eqn:Hc; [reflexivity|].
  rewrite Hc. reflexivity.
Qed.

(** Upper-casing and replacing the first character a second time changes
    nothing, for each of the 256 characters. *)
Lemma first_character_stable (c : Ascii.ascii) :
  let label c := if Ascii.eqb (toUpperCase c) "_" then " "%char
                 else toUpperCase c in
  label (label c) = label c.
Proof.
  destruct c as [[|] [|] [|] [|] [|] [|] [|] [|]]; reflexivity.
Qed.

(** X21: the label of an ASCII type tag has the length of the tag and no
    underscore, and formatting a label again gives the same label. *)
Theorem formatEventName_label (type : string) :
  is_ascii type = true ->
  String.length (formatEventName type) = String.length type
  /\ no_underscore (formatEventName type) = true
  /\ formatEventName (formatEventName type) = formatEventName type.
Proof.
  intros _. unfold formatEventName. split; [|split].
  - rewrite replace_underscores_length. destruct type; reflexivity.
  - apply replace_underscores_clean.
  - destruct type as [|c rest]; [reflexivity|]. simpl.
    rewrite replace_underscores_idempotent. f_equal.
    apply (first_character_stable c).
Qed.

Lemma formatEventName_label_witness :
  String.length (formatEventName "tool_call") = String.length "tool_call"
  /\ no_underscore (formatEventName "tool_call") = true
  /\ formatEventName (formatEventName "tool_call")
     = formatEventName "tool_call".
Proof.
  apply (formatEventName_label "tool_call"). reflexivity.
Defined.

Example formatEventName_context_update :
  formatEventName "context_update" = "Context update".
Proof. reflexivity. Qed.
